(** * sloth: the YAML storage stage (internal/prometheus/storage.go)

    A shallow embedding of [StoreSLOs], of its two renderers
    [rawPrometheusYAML] and [rawChronosphereYAML] and of
    [writeTopDisclaimer], together with the properties of the
    natural-language specification that concern them.

    Conventions of the embedding:
    - a Go [string] is a [string] (a sequence of 8-bit characters), a Go
      [[]byte] is a [list Byte.byte], the conversion [[]byte(s)] is
      [list_byte_of_string];
    - a Go [int] is a [Z] (the only integers of this file are small
      constants and slice lengths);
    - a Go [error] is an [option error], [None] being [nil];
    - a Go [map[string]V] is a [gmap string V]; the order in which a
      [range] loop visits it is not fixed by the language, so it is an
      explicit argument of the function that ranges over a map;
    - [yaml.Marshal], [io.Writer] and [info.Version] are collaborators
      from outside this source file: they are taken as parameters. *)

From Stdlib Require Import ZArith Strings.String Strings.Ascii Strings.Byte.
From stdpp Require Import gmap strings list fin_maps sorting pretty.

Local Open Scope string_scope.
Local Open Scope list_scope.

Abbreviation bytes := (list Byte.byte).

(** ** Errors

    [fmt.Errorf(msg)] builds a plain error, [fmt.Errorf(msg + ": %w", err)]
    wraps [err]. *)

Inductive error : Type :=
| errorString (msg : string)
| wrapError (msg : string) (cause : error).

#[global] Instance error_eq_dec : EqDecision error.
Proof. solve_decision. Defined.

Fixpoint Error (e : error) : string :=
  match e with
  | errorString msg => msg
  | wrapError msg cause => msg +:+ ": " +:+ Error cause
  end.

(** ** Input data *)

(** The rule type of Prometheus ([rulefmt.Rule], read through yaml.v2):
    a record-or-alert name, an expression, an optional duration and two
    optional string mappings. *)
Record Rule : Type := mkRule {
  Record_ : string;
  Alert : string;
  Expr : string;
  For : Z;
  Labels : gmap string string;
  Annotations : gmap string string
}.

(** Modelled from the spec: the type [SLO], declared in another file of
    the package: "identity (ID, owning service name) plus metadata". Only
    the two fields that the storage stage reads are kept. *)
Record SLO : Type := mkSLO {
  ID : string;
  Service : string
}.

(** Modelled from the spec: the type [SLORules], declared in another file
    of the package: "three ordered sequences of Rule attached to one
    objective". *)
Record SLORules : Type := mkSLORules {
  SLIErrorRecRules : list Rule;
  MetadataRecRules : list Rule;
  AlertRules : list Rule
}.

Record StorageSLO : Type := mkStorageSLO {
  SLO_ : SLO;
  Rules : SLORules
}.

(** ** Output flavor: [type OutputFlavor int] with two named constants *)

Definition OutputFlavor : Type := Z.
Definition PrometheusFlavor : OutputFlavor := 0%Z.
Definition ChronosphereFlavor : OutputFlavor := 1%Z.

Definition ErrNoSLORules : error :=
  errorString "0 SLO Prometheus rules generated".

(** ** Serialization targets *)

Record ruleGroupYAMLv2 : Type := mkRuleGroup {
  rg_Name : string;
  rg_Interval : Z;
  rg_Rules : list Rule
}.

Record ruleGroupsYAMLv2 : Type := mkRuleGroups {
  Groups : list ruleGroupYAMLv2
}.

Record chronosphereCollection : Type := mkCollection {
  col_Slug : string;
  col_Name : string;
  col_Description : string;
  col_Team_slug : string;
  col_Notification_policy_slug : string
}.

Record chronosphereCollectionYAML : Type := mkCollectionYAML {
  cy_Api_version : string;
  cy_Kind : string;
  cy_Spec : chronosphereCollection
}.

Record chronosphereLabelPolicy : Type := mkLabelPolicy {
  Add : gmap string string
}.

Record chronosphereRule : Type := mkChronoRule {
  cr_Slug : string;
  cr_Name : string;
  cr_Collection : string;
  cr_Interval_secs : Z;
  cr_Metric_name : string;
  cr_Expr : string;
  cr_Label_policy : chronosphereLabelPolicy
}.

Record chronosphereRuleYAML : Type := mkRuleYAML {
  ry_Api_version : string;
  ry_Kind : string;
  ry_Spec : chronosphereRule
}.

(** The zero values of the two envelopes' [Spec] fields. *)
Definition zeroCollection : chronosphereCollection :=
  mkCollection "" "" "" "" "".

Definition zeroChronoRule : chronosphereRule :=
  mkChronoRule "" "" "" 0 "" "" (mkLabelPolicy ∅).

Definition NewChronosphereCollectionYAML : chronosphereCollectionYAML :=
  {| cy_Api_version := "v1/config"; cy_Kind := "Collection";
     cy_Spec := zeroCollection |}.

Definition NewChronosphereRuleYAML : chronosphereRuleYAML :=
  {| ry_Api_version := "v1/config"; ry_Kind := "RecordingRule";
     ry_Spec := zeroChronoRule |}.

(** ** [strings.Replace]

    [replace_from old new n skip s] scans [s] from the left; [skip] counts
    the characters of a match that are still to be dropped and [n] the
    replacements still allowed (a negative [n] never reaches zero: no
    limit). *)
Fixpoint replace_from (old new : string) (n : Z) (skip : nat) (s : string)
  : string :=
  match s with
  | EmptyString => EmptyString
  | String c s' =>
      match skip with
      | S k => replace_from old new n k s'
      | O =>
          if (n =? 0)%Z then s
          else if String.prefix old s
               then new +:+ replace_from old new (n - 1) (String.length old - 1) s'
               else String c (replace_from old new n 0 s')
      end
  end.

(** [strings.Replace(s, old, new, n)] for a non-empty [old]. (With an empty
    [old] Go inserts [new] at every rune boundary; the program never
    calls it so, and the model returns [s] there.) *)
Definition strings_Replace (s old new : string) (n : Z) : string :=
  if decide (old = new) then s
  else if (n =? 0)%Z then s
  else if decide (old = "") then s
  else replace_from old new n 0 s.

(** What the specification says of the same call: every colon becomes an
    underscore. *)
Fixpoint colons_to_underscores (s : string) : string :=
  match s with
  | EmptyString => EmptyString
  | String c s' =>
      String (if Ascii.eqb c ":"%char then "_"%char else c)
             (colons_to_underscores s')
  end.

(** ** Collaborators *)

(** [yaml.Marshal(v)] returns the encoding of [v] or an error. The encoder
    is the yaml.v2 library; one instance per type the program encodes. *)
Class Marshaler (A : Type) : Type :=
  yaml_Marshal : A → bytes + error.

(** Modelled from the spec: the logger of [internal/log], which is not in
    this source file: leveled, key-valued, context-scoped logging. A
    logger carries its key-values; an entry that is logged is appended to
    the log of the state. *)
Inductive LogValue : Type :=
| LogString (s : string)
| LogInt (n : Z).

Definition Kv : Type := list (string * LogValue).

Record Logger : Type := mkLogger { values : Kv }.

Record LogEntry : Type := mkLogEntry {
  entry_values : Kv;
  entry_level : string;
  entry_msg : string
}.

Definition WithValues (l : Logger) (kv : Kv) : Logger :=
  {| values := values l ++ kv |}.

(** A [context.Context] is read only for the key-values it carries. *)
Definition Context_ : Type := Kv.

Definition WithCtxValues (l : Logger) (ctx : Context_) : Logger :=
  WithValues l ctx.

(** The order in which a [range] loop visits the entries of a map. Go
    leaves it unspecified: any arrangement of the entries is allowed, and
    two loops over the same map need not agree. *)
Definition MapRange (V : Type) : Type :=
  gmap string V → list (string * V).

Definition valid_range {V : Type} (range : MapRange V) : Prop :=
  ∀ m, range m ≡ₚ map_to_list m.

Definition len {A : Type} (l : list A) : Z := Z.of_nat (length l).

Definition newline : string := String (ascii_of_nat 10) EmptyString.

(** The document boundary marker, [[]byte("---\n")]. *)
Definition boundary : bytes := list_byte_of_string ("---" +:+ newline).

(** ** Sample collaborators

    Concrete collaborators on which the model runs: an encoder that
    prints the three document types the way yaml.v2 prints them when
    every scalar is plain (no quoting, a duration as a number of
    seconds), writers, and two map orders. The theorems below hold for
    every encoder, writer and order; these are used in the examples. *)
Module Sample.

Definition block : Type := list string.

Definition scalar (key v : string) : block := [key +:+ ": " +:+ v].

Definition scalar_omitempty (key v : string) : block :=
  if decide (v = "") then [] else scalar key v.

Definition indented (b : block) : block := (λ l, "  " +:+ l) <$> b.

Definition nested (key : string) (b : block) : block :=
  (key +:+ ":") :: indented b.

Definition item (b : block) : block :=
  match b with
  | [] => ["- {}"]
  | l :: ls => ("- " +:+ l) :: indented ls
  end.

Definition sequence (key : string) (items : list block) : block :=
  match items with
  | [] => [key +:+ ": []"]
  | _ => (key +:+ ":") :: concat (item <$> items)
  end.

Definition sortedEntries (m : gmap string string) : list (string * string) :=
  merge_sort (λ p q : string * string, String.leb p.1 q.1) (map_to_list m).

Definition mapping (key : string) (m : gmap string string) : block :=
  match sortedEntries m with
  | [] => [key +:+ ": {}"]
  | kvs => nested key (kvs ≫= λ kv, scalar kv.1 kv.2)
  end.

Definition mapping_omitempty (key : string) (m : gmap string string) : block :=
  if decide (m = ∅) then [] else mapping key m.

(** The lines of a block, each ended by a line break. *)
Definition text (b : block) : string :=
  foldr (λ l acc, l +:+ newline +:+ acc) "" b.

Definition render (b : block) : bytes := list_byte_of_string (text b).

Definition duration (d : Z) : string := pretty (d `div` 1000000000)%Z +:+ "s".

Definition ruleBlock (r : Rule) : block :=
  scalar_omitempty "record" (Record_ r) ++
  scalar_omitempty "alert" (Alert r) ++
  scalar "expr" (Expr r) ++
  (if decide (For r = 0%Z) then [] else scalar "for" (duration (For r))) ++
  mapping_omitempty "labels" (Labels r) ++
  mapping_omitempty "annotations" (Annotations r).

Definition groupBlock (g : ruleGroupYAMLv2) : block :=
  scalar "name" (rg_Name g) ++
  (if decide (rg_Interval g = 0%Z) then []
   else scalar "interval" (duration (rg_Interval g))) ++
  sequence "rules" (ruleBlock <$> rg_Rules g).

Definition collectionBlock (c : chronosphereCollection) : block :=
  scalar "slug" (col_Slug c) ++
  scalar "name" (col_Name c) ++
  scalar "description" (col_Description c) ++
  scalar_omitempty "team_slug" (col_Team_slug c) ++
  scalar_omitempty "notification_policy_slug" (col_Notification_policy_slug c).

Definition chronoRuleBlock (r : chronosphereRule) : block :=
  scalar "slug" (cr_Slug r) ++
  scalar "name" (cr_Name r) ++
  scalar "bucket_slug" (cr_Collection r) ++
  scalar "interval_secs" (pretty (cr_Interval_secs r)) ++
  scalar "metric_name" (cr_Metric_name r) ++
  scalar "prometheus_expr" (cr_Expr r) ++
  nested "label_policy" (mapping "add" (Add (cr_Label_policy r))).

Definition encodeGroups : Marshaler ruleGroupsYAMLv2 :=
  λ v, inl (render (sequence "groups" (groupBlock <$> Groups v))).

Definition encodeCollection : Marshaler chronosphereCollectionYAML :=
  λ v, inl (render (scalar "api_version" (cy_Api_version v) ++
                    scalar "kind" (cy_Kind v) ++
                    nested "spec" (collectionBlock (cy_Spec v)))).

Definition encodeRule : Marshaler chronosphereRuleYAML :=
  λ v, inl (render (scalar "api_version" (ry_Api_version v) ++
                    scalar "kind" (ry_Kind v) ++
                    nested "spec" (chronoRuleBlock (ry_Spec v)))).

(** An encoder that always fails. *)
Definition encodeFails {A : Type} : Marshaler A :=
  λ _, inr (errorString "yaml: cannot marshal").

(** A sink that records the argument of every [Write] it receives. *)
Definition recordingWriter (w : list bytes) (p : bytes)
  : list bytes * (Z * option error) :=
  (w ++ [p], (len p, None)).

(** A sink whose [Write] fails. *)
Definition closedWriter (w : list bytes) (p : bytes)
  : list bytes * (Z * option error) :=
  (w, (0%Z, Some (errorString "io: read/write on closed pipe"))).

(** Two orders of visit of a map. *)
Definition rangeStored {V : Type} : MapRange V := map_to_list.
Definition rangeReversed {V : Type} : MapRange V := λ m, reverse (map_to_list m).

Definition logger0 : Logger := mkLogger [].

Definition recRule (name expr : string) : Rule :=
  mkRule name "" expr 0 ∅ ∅.

Definition alertRule (name expr : string) : Rule :=
  mkRule "" name expr 0 ∅ ∅.

(** The example of the specification: objective "svc01" of service
    "checkout" with one SLI-error recording rule. *)
Definition checkout : StorageSLO :=
  mkStorageSLO (mkSLO "svc01" "checkout")
    (mkSLORules [recRule "slo:sli_error:checkout" "1 - up"] [] []).

(** A second objective of the same service, with one rule of each kind. *)
Definition checkout2 : StorageSLO :=
  mkStorageSLO (mkSLO "svc02" "checkout")
    (mkSLORules [recRule "slo:sli_error:ratio" "rate(e[5m])"]
                [recRule "sloth_slo_info" "vector(1)"]
                [alertRule "HighErrorRate" "slo:burn > 14"]).

(** An objective of another service. *)
Definition payments : StorageSLO :=
  mkStorageSLO (mkSLO "svc03" "payments")
    (mkSLORules [] [recRule "slo:objective:ratio" "vector(0.99)"] []).

(** The disclaimer of version "dev" and the rule-group document of
    [checkout], line by line. *)
Definition disclaimerDev : bytes :=
  list_byte_of_string
    (text [ "";
            "---";
            "# Code generated by Sloth (dev): https://github.com/slok/sloth.";
            "# DO NOT EDIT.";
            "" ]).

Definition checkoutPayload : bytes :=
  list_byte_of_string
    (text [ "groups:";
            "- name: sloth-slo-sli-recordings-svc01";
            "  rules:";
            "  - record: slo:sli_error:checkout";
            "    expr: 1 - up" ]).

(** An objective with alert rules only, and one with no rule at all. *)
Definition alertsOnly : StorageSLO :=
  mkStorageSLO (mkSLO "svc04" "search")
    (mkSLORules [] [] [alertRule "SearchDown" "up == 0"]).

Definition noRules : StorageSLO :=
  mkStorageSLO (mkSLO "svc05" "idle") (mkSLORules [] [] []).

End Sample.

(** ** The storage stage *)

Section Storage.

(** [info.Version], the version string of the build. *)
Context (Version : string).

(** [yaml.Marshal] at the three types it is called on. *)
Context {MarshalGroups : Marshaler ruleGroupsYAMLv2}
        {MarshalCollection : Marshaler chronosphereCollectionYAML}
        {MarshalRule : Marshaler chronosphereRuleYAML}.

(** The state of the sink behind the [io.Writer]. *)
Context {W : Type}.

(** The repository value: the [Write] method of its [io.Writer], which
    returns the sink it leaves with the pair [(n, err)], and its logger. *)
Record IOWriterGroupedRulesYAMLRepo : Type := mkRepo {
  writer : W → bytes → W * (Z * option error);
  logger : Logger
}.

(** What a call can change: the sink and the log. *)
Record State : Type := mkState {
  sink : W;
  logged : list LogEntry
}.

Definition Infof (l : Logger) (msg : string) (st : State) : State :=
  {| sink := sink st;
     logged := logged st ++ [mkLogEntry (values l) "info" msg] |}.

Definition NewIOWriterGroupedRulesYAMLRepo
    (writer : W → bytes → W * (Z * option error)) (logger : Logger)
  : IOWriterGroupedRulesYAMLRepo :=
  {| writer := writer;
     logger := WithValues logger
                 [("svc", LogString "storage.IOWriter");
                  ("format", LogString "yaml")] |}.

(** *** [rawPrometheusYAML] *)

(** The body of the loop over [slos]: up to three appends. *)
Definition appendRuleGroups (groups : list ruleGroupYAMLv2) (slo : StorageSLO)
  : list ruleGroupYAMLv2 :=
  let groups :=
    if (len (SLIErrorRecRules (Rules slo)) >? 0)%Z
    then groups ++ [ {| rg_Name := "sloth-slo-sli-recordings-" +:+ ID (SLO_ slo);
                        rg_Interval := 0;
                        rg_Rules := SLIErrorRecRules (Rules slo) |} ]
    else groups in
  let groups :=
    if (len (MetadataRecRules (Rules slo)) >? 0)%Z
    then groups ++ [ {| rg_Name := "sloth-slo-meta-recordings-" +:+ ID (SLO_ slo);
                        rg_Interval := 0;
                        rg_Rules := MetadataRecRules (Rules slo) |} ]
    else groups in
  if (len (AlertRules (Rules slo)) >? 0)%Z
  then groups ++ [ {| rg_Name := "sloth-slo-alerts-" +:+ ID (SLO_ slo);
                      rg_Interval := 0;
                      rg_Rules := AlertRules (Rules slo) |} ]
  else groups.

(** [ruleGroups] when the loop ends. *)
Definition promRuleGroups (slos : list StorageSLO) : ruleGroupsYAMLv2 :=
  {| Groups := foldl appendRuleGroups [] slos |}.

Definition rawPrometheusYAML (slos : list StorageSLO) (logger : Logger)
  : Z * bytes * option error :=
  let ruleGroups := promRuleGroups slos in
  if (len (Groups ruleGroups) =? 0)%Z then (0%Z, [], Some ErrNoSLORules)
  else
    match yaml_Marshal ruleGroups with
    | inr err => (0%Z, [], Some (wrapError "could not format rules" err))
    | inl rulesYaml => (len (Groups ruleGroups), rulesYaml, None)
    end.

(** *** [rawChronosphereYAML] *)

Definition slothCollection (slo : StorageSLO) : chronosphereCollection :=
  {| col_Slug := "sloth-slo-" +:+ Service (SLO_ slo);
     col_Name := "sloth-slo-" +:+ Service (SLO_ slo);
     col_Description := "SLOs generated by Sloth";
     col_Team_slug := "";
     col_Notification_policy_slug := "" |}.

(** The rule built in the loop over [SLIErrorRecRules]. *)
Definition sliChronoRule (slo : StorageSLO) (collection : chronosphereCollection)
    (rule : Rule) : chronosphereRule :=
  let ruleId := "sloth-slo-sli-recordings-" +:+ ID (SLO_ slo) +:+ "-" +:+
                strings_Replace (Record_ rule) ":" "_" (-1) in
  {| cr_Slug := ruleId;
     cr_Name := ruleId;
     cr_Collection := col_Slug collection;
     cr_Interval_secs := 300;
     cr_Metric_name := Record_ rule;
     cr_Expr := Expr rule;
     cr_Label_policy := {| Add := Labels rule |} |}.

(** The rule built in the loop over [MetadataRecRules]. *)
Definition metaChronoRule (slo : StorageSLO) (collection : chronosphereCollection)
    (rule : Rule) : chronosphereRule :=
  let ruleId := "sloth-slo-sli-recordings-" +:+ ID (SLO_ slo) +:+ "-" +:+
                strings_Replace (Record_ rule) ":" "_" (-1) in
  {| cr_Slug := ruleId;
     cr_Name := ruleId;
     cr_Collection := col_Slug collection;
     cr_Interval_secs := 300;
     cr_Metric_name := Record_ rule;
     cr_Expr := Expr rule;
     cr_Label_policy := {| Add := Labels rule |} |}.

(** The body of the first loop, on the pair [(collections, rules)]. *)
Definition collectSLO
    (acc : gmap string chronosphereCollection * list chronosphereRule)
    (slo : StorageSLO)
  : gmap string chronosphereCollection * list chronosphereRule :=
  let '(collections, rules) := acc in
  let collection := slothCollection slo in
  let rules :=
    foldl (λ rules rule, rules ++ [sliChronoRule slo collection rule])
          rules (SLIErrorRecRules (Rules slo)) in
  let rules :=
    foldl (λ rules rule, rules ++ [metaChronoRule slo collection rule])
          rules (MetadataRecRules (Rules slo)) in
  (<[col_Slug collection := collection]> collections, rules).

Definition collect (slos : list StorageSLO)
  : gmap string chronosphereCollection * list chronosphereRule :=
  foldl collectSLO (∅, []) slos.

(** The second loop: one document and one boundary per collection, in
    the order of the visit; the first encoding error ends the call. *)
Fixpoint marshalCollections (cs : list chronosphereCollection)
    (outputYaml : bytes) : bytes + error :=
  match cs with
  | [] => inl outputYaml
  | collection :: cs =>
      match yaml_Marshal
              {| cy_Api_version := cy_Api_version NewChronosphereCollectionYAML;
                 cy_Kind := cy_Kind NewChronosphereCollectionYAML;
                 cy_Spec := collection |} with
      | inr err => inr (wrapError "could not format collections" err)
      | inl collectionYaml =>
          marshalCollections cs ((outputYaml ++ collectionYaml) ++ boundary)
      end
  end.

(** The third loop, over the slice [rules]. *)
Fixpoint marshalRules (rs : list chronosphereRule) (outputYaml : bytes)
  : bytes + error :=
  match rs with
  | [] => inl outputYaml
  | rule :: rs =>
      match yaml_Marshal
              {| ry_Api_version := ry_Api_version NewChronosphereRuleYAML;
                 ry_Kind := ry_Kind NewChronosphereRuleYAML;
                 ry_Spec := rule |} with
      | inr err => inr (wrapError "could not format rules" err)
      | inl ruleYaml =>
          marshalRules rs ((outputYaml ++ ruleYaml) ++ boundary)
      end
  end.

Definition rawChronosphereYAML (range : MapRange chronosphereCollection)
    (slos : list StorageSLO) (logger : Logger) : Z * bytes * option error :=
  let '(collections, rules) := collect slos in
  if (Z.of_nat (size collections) =? 0)%Z then (0%Z, [], Some ErrNoSLORules)
  else
    match marshalCollections (range collections).*2 [] with
    | inr err => (0%Z, [], Some err)
    | inl outputYaml =>
        match marshalRules rules outputYaml with
        | inr err => (0%Z, [], Some err)
        | inl outputYaml => (Z.of_nat (size collections), outputYaml, None)
        end
    end.

(** *** [writeTopDisclaimer] *)

Definition disclaimer : string :=
  newline +:+ "---" +:+ newline +:+
  "# Code generated by Sloth (" +:+ Version +:+ "): https://github.com/slok/sloth." +:+ newline +:+
  "# DO NOT EDIT." +:+ newline +:+
  newline.

Definition writeTopDisclaimer (bs : bytes) : bytes :=
  list_byte_of_string disclaimer ++ bs.

(** *** [StoreSLOs] *)

Definition StoreSLOs (i : IOWriterGroupedRulesYAMLRepo)
    (range : MapRange chronosphereCollection) (ctx : Context_)
    (slos : list StorageSLO) (flavor : OutputFlavor) (st : State)
  : State * option error :=
  if (len slos =? 0)%Z then (st, Some (errorString "slo rules required"))
  else
    let logger := WithCtxValues (logger i) ctx in
    let rendered : (Z * bytes * option error) + error :=
      if (flavor =? PrometheusFlavor)%Z then inl (rawPrometheusYAML slos logger)
      else if (flavor =? ChronosphereFlavor)%Z
           then inl (rawChronosphereYAML range slos logger)
           else inr (errorString "unsupported flavor") in
    match rendered with
    | inr err => (st, Some err)
    | inl (_, _, Some err) => (st, Some err)
    | inl (rules, rulesYaml, None) =>
        let rulesYaml := writeTopDisclaimer rulesYaml in
        let '(sink', (_, err)) := writer i (sink st) rulesYaml in
        let st := {| sink := sink'; logged := logged st |} in
        match err with
        | Some err => (st, Some (wrapError "could not write top disclaimer" err))
        | None =>
            (Infof (WithValues logger [("groups", LogInt rules)])
                   "Prometheus rules written" st, None)
        end
    end.

(** ** The specification's descriptions *)

(** Rule-group flavor: the group of one kind for one objective, present
    only when the sequence of that kind is not empty. *)
Definition groupOf (kind : string) (objectiveID : string) (rules : list Rule)
  : list ruleGroupYAMLv2 :=
  match rules with
  | [] => []
  | _ => [ {| rg_Name := "sloth-slo-" +:+ kind +:+ "-" +:+ objectiveID;
              rg_Interval := 0;
              rg_Rules := rules |} ]
  end.

(** SLI recordings, then metadata recordings, then alerts, unit after
    unit in the order of the input. *)
Definition specRuleGroups (slos : list StorageSLO) : list ruleGroupYAMLv2 :=
  slo ← slos;
  groupOf "sli-recordings" (ID (SLO_ slo)) (SLIErrorRecRules (Rules slo)) ++
  groupOf "meta-recordings" (ID (SLO_ slo)) (MetadataRecRules (Rules slo)) ++
  groupOf "alerts" (ID (SLO_ slo)) (AlertRules (Rules slo)).

Definition nonEmpty (rules : list Rule) : nat :=
  match rules with [] => 0 | _ => 1 end.

(** The number of non-empty (objective, kind) sequences of the input. *)
Definition nonEmptySequences (slos : list StorageSLO) : nat :=
  sum_list ((λ slo, nonEmpty (SLIErrorRecRules (Rules slo)) +
                    nonEmpty (MetadataRecRules (Rules slo)) +
                    nonEmpty (AlertRules (Rules slo))) <$> slos).

(** Platform-resource flavor: the resource of one recording rule. *)
Definition platformRule (slo : StorageSLO) (rule : Rule) : chronosphereRule :=
  {| cr_Slug := "sloth-slo-sli-recordings-" +:+ ID (SLO_ slo) +:+ "-" +:+
                colons_to_underscores (Record_ rule);
     cr_Name := "sloth-slo-sli-recordings-" +:+ ID (SLO_ slo) +:+ "-" +:+
                colons_to_underscores (Record_ rule);
     cr_Collection := "sloth-slo-" +:+ Service (SLO_ slo);
     cr_Interval_secs := 300;
     cr_Metric_name := Record_ rule;
     cr_Expr := Expr rule;
     cr_Label_policy := {| Add := Labels rule |} |}.

(** One resource per SLI-error recording rule and per metadata
    recording rule, none for an alert rule. *)
Definition specPlatformRules (slos : list StorageSLO) : list chronosphereRule :=
  slo ← slos;
  (platformRule slo <$> SLIErrorRecRules (Rules slo)) ++
  (platformRule slo <$> MetadataRecRules (Rules slo)).

(** The service names of the input, each once. *)
Definition serviceNames (slos : list StorageSLO) : gset string :=
  list_to_set ((λ slo, Service (SLO_ slo)) <$> slos).

(** The Collection documents of a call, in the order they are emitted. *)
Definition emittedCollections (range : MapRange chronosphereCollection)
    (slos : list StorageSLO) : list chronosphereCollection :=
  (range (collect slos).1).*2.

(** The payload of a call: what the renderer of the flavor returns when
    it succeeds. (The renderers do not use their logger.) *)
Definition payloadOf (range : MapRange chronosphereCollection)
    (slos : list StorageSLO) (flavor : OutputFlavor) : option bytes :=
  if (flavor =? PrometheusFlavor)%Z then
    match rawPrometheusYAML slos (mkLogger []) with
    | (_, rulesYaml, None) => Some rulesYaml
    | _ => None
    end
  else if (flavor =? ChronosphereFlavor)%Z then
    match rawChronosphereYAML range slos (mkLogger []) with
    | (_, rulesYaml, None) => Some rulesYaml
    | _ => None
    end
  else None.

(** The bytes a call hands to the sink, when it reaches the write. *)
Definition written (range : MapRange chronosphereCollection)
    (slos : list StorageSLO) (flavor : OutputFlavor) : option bytes :=
  match slos with
  | [] => None
  | _ => writeTopDisclaimer <$> payloadOf range slos flavor
  end.

(** The log entry of a successful call. *)
Definition successEntry (i : IOWriterGroupedRulesYAMLRepo) (ctx : Context_)
    (rules : Z) : LogEntry :=
  mkLogEntry ((values (logger i) ++ ctx) ++ [("groups", LogInt rules)])
             "info" "Prometheus rules written".

(** The errors a call can return before it reaches the write:
    input validation, unsupported flavor, no rules produced, encoding. *)
Inductive renderFailure : error → Prop :=
| failure_input : renderFailure (errorString "slo rules required")
| failure_flavor : renderFailure (errorString "unsupported flavor")
| failure_no_rules : renderFailure ErrNoSLORules
| failure_rules (cause : error) :
    renderFailure (wrapError "could not format rules" cause)
| failure_collections (cause : error) :
    renderFailure (wrapError "could not format collections" cause).

(** A unit with its alert rules replaced. *)
Definition setAlerts (alerts : StorageSLO → list Rule) (slo : StorageSLO)
  : StorageSLO :=
  {| SLO_ := SLO_ slo;
     Rules := {| SLIErrorRecRules := SLIErrorRecRules (Rules slo);
                 MetadataRecRules := MetadataRecRules (Rules slo);
                 AlertRules := alerts slo |} |}.

(** The number of recording rules of the input, of both kinds. *)
Definition recordingRules (slos : list StorageSLO) : nat :=
  sum_list ((λ slo, length (SLIErrorRecRules (Rules slo)) +
                    length (MetadataRecRules (Rules slo))) <$> slos).

(** Every unit has its three rule sequences empty. *)
Definition allEmpty (slos : list StorageSLO) : Prop :=
  Forall (λ slo, SLIErrorRecRules (Rules slo) = [] ∧
                 MetadataRecRules (Rules slo) = [] ∧
                 AlertRules (Rules slo) = []) slos.

(** The loops of the platform-resource renderer, as the specification
    describes their result: one document and one boundary per element,
    in order; the first element that does not encode ends the call with
    its error wrapped by the stage's message. *)
Fixpoint documents {A : Type} (encode : A → bytes + error) (stage : string)
    (l : list A) : list bytes + error :=
  match l with
  | [] => inl []
  | x :: l =>
      match encode x with
      | inr err => inr (wrapError stage err)
      | inl doc =>
          match documents encode stage l with
          | inr err => inr err
          | inl docs => inl ((doc ++ boundary) :: docs)
          end
      end
  end.

Definition collectionDocuments (cs : list chronosphereCollection)
  : list bytes + error :=
  documents (λ c, yaml_Marshal (mkCollectionYAML "v1/config" "Collection" c))
            "could not format collections" cs.

Definition ruleDocuments (rs : list chronosphereRule) : list bytes + error :=
  documents (λ r, yaml_Marshal (mkRuleYAML "v1/config" "RecordingRule" r))
            "could not format rules" rs.

(** The collection of a service: the one derived from the last unit of
    that service in the input, if there is one. *)
Definition lastOfService (s : string) (slos : list StorageSLO)
  : option chronosphereCollection :=
  slothCollection <$> last (filter (λ slo, Service (SLO_ slo) = s) slos).

(** The layout the specification gives to the output: the banner, then a
    document boundary marker, then the payload. *)
Definition bannerThenBoundary (out payload : bytes) : Prop :=
  ∃ banner : bytes, out = banner ++ boundary ++ payload.

(** The comment lines of the banner. *)
Definition bannerLines : string :=
  "# Code generated by Sloth (" +:+ Version +:+ "): https://github.com/slok/sloth." +:+ newline +:+
  "# DO NOT EDIT." +:+ newline.

(** ** Further descriptions of the renderers *)

(** Every rule of the input, unit after unit: SLI recordings, metadata
    recordings, alerts. *)
Definition allRules (slos : list StorageSLO) : list Rule :=
  slo ← slos;
  SLIErrorRecRules (Rules slo) ++ MetadataRecRules (Rules slo) ++
  AlertRules (Rules slo).

(** The encoder accepts the Collection document of [c]. *)
Definition collectionEncodes (c : chronosphereCollection) : Prop :=
  ∃ doc, yaml_Marshal (mkCollectionYAML "v1/config" "Collection" c) = inl doc.

(** The encoder accepts the RecordingRule document of [r]. *)
Definition ruleEncodes (r : chronosphereRule) : Prop :=
  ∃ doc, yaml_Marshal (mkRuleYAML "v1/config" "RecordingRule" r) = inl doc.

(** The string holds a colon. *)
Definition hasColon (s : string) : Prop :=
  ":"%char ∈ list_ascii_of_string s.

(** [doc] is the document of the Collection [c]: its encoding followed by
    the boundary marker. *)
Definition collectionDocument (c : chronosphereCollection) (doc : bytes) : Prop :=
  ∃ d, yaml_Marshal (mkCollectionYAML "v1/config" "Collection" c) = inl d ∧
       doc = d ++ boundary.

(** [doc] is the document of the rule resource [r]. *)
Definition ruleDocument (r : chronosphereRule) (doc : bytes) : Prop :=
  ∃ d, yaml_Marshal (mkRuleYAML "v1/config" "RecordingRule" r) = inl d ∧
       doc = d ++ boundary.

(** What the platform-resource renderer returns once its table is not
    empty, for the Collections [cs] in the order they are visited and the
    rule resources [rs]: the documents of [cs], then the documents of
    [rs], with the number of Collections; or the error of the first
    resource that does not encode, Collections first. *)
Definition renderDocuments (cs : list chronosphereCollection)
    (rs : list chronosphereRule) : Z * bytes * option error :=
  match collectionDocuments cs with
  | inr err => (0%Z, [], Some err)
  | inl cdocs =>
      match ruleDocuments rs with
      | inr err => (0%Z, [], Some err)
      | inl rdocs => (Z.of_nat (length cs), concat cdocs ++ concat rdocs, None)
      end
  end.

(** ** Strings and bytes *)

Lemma replace_from_colons (n : Z) (s : string) :
  (n < 0)%Z → replace_from ":" "_" n 0 s = colons_to_underscores s.
Proof.
  revert n. induction s as [|c s IH]; intros n Hn; [done|].
  cbn [replace_from colons_to_underscores].
  destruct (Z.eqb_spec n 0) as [->|_]; [lia|].
  cbn [String.prefix String.length Nat.sub].
  destruct (ascii_dec ":" c) as [<-|Hc].
  - replace (String.prefix "" s) with true by (by destruct s).
    cbn. by rewrite IH by lia.
  - destruct (Ascii.eqb_spec c ":") as [->|_]; [done|].
    by rewrite IH.
Qed.

Lemma strings_Replace_colons (s : string) :
  strings_Replace s ":" "_" (-1) = colons_to_underscores s.
Proof. unfold strings_Replace. cbn. by apply replace_from_colons. Qed.

Lemma list_byte_of_string_app (s t : string) :
  list_byte_of_string (s +:+ t) = list_byte_of_string s ++ list_byte_of_string t.
Proof.
  unfold list_byte_of_string.
  induction s as [|c s IH]; [done|].
  change (String c s +:+ t) with (String c (s +:+ t)). cbn. by rewrite IH.
Qed.

Lemma len_nil_iff {A : Type} (l : list A) : (len l =? 0)%Z = true ↔ l = [].
Proof.
  unfold len. destruct l; cbn; [done|]. split; [|done].
  intros H. apply Z.eqb_eq in H. lia.
Qed.

Lemma len_pos {A : Type} (l : list A) :
  (len l >? 0)%Z = match l with [] => false | _ => true end.
Proof. by destruct l. Qed.

(** ** The rule-group renderer *)

Lemma appendRuleGroups_app (groups : list ruleGroupYAMLv2) (slo : StorageSLO) :
  appendRuleGroups groups slo =
  groups ++ specRuleGroups [slo].
Proof.
  unfold appendRuleGroups, specRuleGroups. rewrite !len_pos. cbn.
  rewrite app_nil_r.
  destruct (SLIErrorRecRules _), (MetadataRecRules _), (AlertRules _); cbn;
    rewrite <- ?app_assoc, ?app_nil_r; done.
Qed.

Lemma specRuleGroups_app (l1 l2 : list StorageSLO) :
  specRuleGroups (l1 ++ l2) = specRuleGroups l1 ++ specRuleGroups l2.
Proof. unfold specRuleGroups. apply bind_app. Qed.

Lemma foldl_appendRuleGroups (slos : list StorageSLO)
    (groups : list ruleGroupYAMLv2) :
  foldl appendRuleGroups groups slos = groups ++ specRuleGroups slos.
Proof.
  revert groups. induction slos as [|slo slos IH]; intros groups.
  - cbn. by rewrite app_nil_r.
  - cbn [foldl]. rewrite IH, appendRuleGroups_app, <- app_assoc.
    f_equal. by rewrite <- specRuleGroups_app.
Qed.

Lemma length_groupOf (kind objectiveID : string) (rules : list Rule) :
  length (groupOf kind objectiveID rules) = nonEmpty rules.
Proof. by destruct rules. Qed.

Lemma length_specRuleGroups (slos : list StorageSLO) :
  length (specRuleGroups slos) = nonEmptySequences slos.
Proof.
  induction slos as [|slo slos IH]; [done|].
  change (slo :: slos) with ([slo] ++ slos).
  rewrite specRuleGroups_app, length_app, IH.
  unfold nonEmptySequences. cbn. rewrite app_nil_r, !length_app, !length_groupOf.
  lia.
Qed.

Lemma promRuleGroups_spec (slos : list StorageSLO) :
  promRuleGroups slos = {| Groups := specRuleGroups slos |}.
Proof. unfold promRuleGroups. by rewrite foldl_appendRuleGroups. Qed.

Lemma rawPrometheusYAML_spec (slos : list StorageSLO) (logger : Logger) :
  rawPrometheusYAML slos logger =
    if decide (nonEmptySequences slos = 0) then (0%Z, [], Some ErrNoSLORules)
    else match yaml_Marshal {| Groups := specRuleGroups slos |} with
         | inl rulesYaml =>
             (Z.of_nat (nonEmptySequences slos), rulesYaml, None)
         | inr err => (0%Z, [], Some (wrapError "could not format rules" err))
         end.
Proof.
  unfold rawPrometheusYAML. rewrite promRuleGroups_spec. cbn [Groups].
  unfold len. rewrite length_specRuleGroups.
  destruct (decide (nonEmptySequences slos = 0)) as [->|Hn]; [done|].
  destruct (Z.eqb_spec (Z.of_nat (nonEmptySequences slos)) 0); [lia|done].
Qed.

(** C1. The rule-group renderer hands to the encoder one group per
    non-empty (objective, kind) sequence and none for an empty one, named
    "sloth-slo-sli-recordings-<id>", "sloth-slo-meta-recordings-<id>" and
    "sloth-slo-alerts-<id>", in the order SLI recordings, metadata
    recordings, alerts inside a unit and in input order across units;
    the length of the "groups" list and the count returned are the
    number of non-empty sequences. *)
Theorem rule_groups_one_per_nonempty_sequence
    (slos : list StorageSLO) (logger : Logger) :
  Groups (promRuleGroups slos) = specRuleGroups slos ∧
  length (Groups (promRuleGroups slos)) = nonEmptySequences slos ∧
  rawPrometheusYAML slos logger =
    if decide (nonEmptySequences slos = 0) then (0%Z, [], Some ErrNoSLORules)
    else match yaml_Marshal {| Groups := specRuleGroups slos |} with
         | inl rulesYaml =>
             (Z.of_nat (nonEmptySequences slos), rulesYaml, None)
         | inr err => (0%Z, [], Some (wrapError "could not format rules" err))
         end.
Proof.
  split_and!.
  - by rewrite promRuleGroups_spec.
  - rewrite promRuleGroups_spec. apply length_specRuleGroups.
  - apply rawPrometheusYAML_spec.
Qed.

(** ** The platform-resource renderer: the table and the rules *)

Lemma foldl_snoc_fmap {A B : Type} (f : A → B) (l : list A) (acc : list B) :
  foldl (λ acc x, acc ++ [f x]) acc l = acc ++ (f <$> l).
Proof.
  revert acc. induction l as [|x l IH]; intros acc; cbn.
  - by rewrite app_nil_r.
  - by rewrite IH, <- app_assoc.
Qed.

Lemma sliChronoRule_platformRule (slo : StorageSLO) (rule : Rule) :
  sliChronoRule slo (slothCollection slo) rule = platformRule slo rule.
Proof. unfold sliChronoRule, platformRule. by rewrite strings_Replace_colons. Qed.

Lemma metaChronoRule_platformRule (slo : StorageSLO) (rule : Rule) :
  metaChronoRule slo (slothCollection slo) rule = platformRule slo rule.
Proof. unfold metaChronoRule, platformRule. by rewrite strings_Replace_colons. Qed.

Lemma specPlatformRules_app (l1 l2 : list StorageSLO) :
  specPlatformRules (l1 ++ l2) = specPlatformRules l1 ++ specPlatformRules l2.
Proof. unfold specPlatformRules. apply bind_app. Qed.

Lemma collectSLO_spec (m : gmap string chronosphereCollection)
    (rs : list chronosphereRule) (slo : StorageSLO) :
  collectSLO (m, rs) slo =
  (<[col_Slug (slothCollection slo) := slothCollection slo]> m,
   rs ++ specPlatformRules [slo]).
Proof.
  unfold collectSLO. rewrite !foldl_snoc_fmap. f_equal.
  unfold specPlatformRules. cbn. rewrite app_nil_r, <- app_assoc.
  apply (f_equal (app rs)).
  apply (f_equal2 app); apply list_fmap_ext; intros _ rule _.
  - apply sliChronoRule_platformRule.
  - apply metaChronoRule_platformRule.
Qed.

Lemma collect_snoc (slos : list StorageSLO) (slo : StorageSLO) :
  collect (slos ++ [slo]) =
  (<[col_Slug (slothCollection slo) := slothCollection slo]> (collect slos).1,
   (collect slos).2 ++ specPlatformRules [slo]).
Proof.
  unfold collect. rewrite foldl_snoc.
  destruct (foldl collectSLO (∅, []) slos) as [m rs].
  apply collectSLO_spec.
Qed.

Lemma collect_rules (slos : list StorageSLO) :
  (collect slos).2 = specPlatformRules slos.
Proof.
  induction slos as [|slo slos IH] using rev_ind; [done|].
  by rewrite collect_snoc, specPlatformRules_app, <- IH.
Qed.

(** The table maps each slug to the collection of the last unit that
    derives this slug. *)
Lemma collect_lookup (slos : list StorageSLO) (k : string) :
  (collect slos).1 !! k =
  slothCollection <$>
    last (filter (λ slo, col_Slug (slothCollection slo) = k) slos).
Proof.
  induction slos as [|slo slos IH] using rev_ind; [done|].
  rewrite collect_snoc, filter_app. cbn [fst].
  rewrite lookup_insert. rewrite filter_cons, filter_nil.
  destruct (decide (col_Slug (slothCollection slo) = k)) as [Hk|Hk].
  - by rewrite last_snoc.
  - by rewrite app_nil_r.
Qed.

Lemma slug_inj (s t : string) :
  "sloth-slo-" +:+ s = "sloth-slo-" +:+ t → s = t.
Proof. intros H. by simplify_eq. Qed.

Lemma collect_lookup_service (slos : list StorageSLO) (s : string) :
  (collect slos).1 !! ("sloth-slo-" +:+ s) = lastOfService s slos.
Proof.
  rewrite collect_lookup. unfold lastOfService. do 2 f_equal.
  apply list_filter_iff. intros slo. cbn [slothCollection col_Slug].
  split; [apply slug_inj|by intros ->].
Qed.

Lemma collect_entry (slos : list StorageSLO) (k : string)
    (c : chronosphereCollection) :
  (collect slos).1 !! k = Some c →
  ∃ slo, slo ∈ slos ∧ c = slothCollection slo ∧
         k = "sloth-slo-" +:+ Service (SLO_ slo).
Proof.
  rewrite collect_lookup. intros H.
  apply fmap_Some in H as (slo & Hlast & ->).
  apply last_Some_elem_of, list_elem_of_filter in Hlast as [<- Hin].
  by exists slo.
Qed.

Lemma lastOfService_is_Some (slos : list StorageSLO) (s : string) :
  is_Some (lastOfService s slos) ↔ s ∈ serviceNames slos.
Proof.
  unfold lastOfService, serviceNames.
  rewrite fmap_is_Some, last_is_Some, elem_of_list_to_set, list_elem_of_fmap.
  split.
  - intros Hne.
    destruct (filter _ slos) as [|slo l] eqn:Hf; [done|].
    assert (Hin : slo ∈ filter (λ slo, Service (SLO_ slo) = s) slos)
      by (rewrite Hf; left).
    apply list_elem_of_filter in Hin as [<- Hin]. by exists slo.
  - intros (slo & -> & Hin) Hnil.
    by apply (filter_nil_not_elem_of _ _ slo) in Hnil.
Qed.

Lemma serviceNames_snoc (slos : list StorageSLO) (slo : StorageSLO) :
  serviceNames (slos ++ [slo]) = serviceNames slos ∪ {[ Service (SLO_ slo) ]}.
Proof.
  unfold serviceNames. rewrite fmap_app, list_to_set_app_L. cbn.
  by rewrite union_empty_r_L.
Qed.

Lemma size_collect (slos : list StorageSLO) :
  size (collect slos).1 = size (serviceNames slos).
Proof.
  induction slos as [|slo slos IH] using rev_ind; [done|].
  rewrite collect_snoc, serviceNames_snoc. cbn [fst].
  rewrite map_size_insert.
  change (col_Slug (slothCollection slo))
    with ("sloth-slo-" +:+ Service (SLO_ slo)).
  rewrite collect_lookup_service.
  destruct (decide (Service (SLO_ slo) ∈ serviceNames slos)) as [Hin|Hin].
  - apply lastOfService_is_Some in Hin as Hs. destruct Hs as [c ->].
    cbn. rewrite IH. f_equal. set_solver.
  - destruct (lastOfService _ slos) as [c|] eqn:Hs.
    { exfalso. apply Hin, lastOfService_is_Some. by rewrite Hs. }
    cbn. rewrite size_union by set_solver. rewrite size_singleton. lia.
Qed.

(** ** The platform-resource renderer: the documents *)

Lemma marshalCollections_documents (cs : list chronosphereCollection)
    (outputYaml : bytes) :
  marshalCollections cs outputYaml =
  match collectionDocuments cs with
  | inl docs => inl (outputYaml ++ concat docs)
  | inr err => inr err
  end.
Proof.
  unfold collectionDocuments. revert outputYaml.
  induction cs as [|c cs IH]; intros outputYaml;
    cbn [marshalCollections documents].
  - cbn. by rewrite app_nil_r.
  - cbn [NewChronosphereCollectionYAML cy_Api_version cy_Kind].
    destruct (yaml_Marshal _) as [doc|err]; [|done].
    rewrite IH. destruct (documents _ _ cs) as [docs|err]; [|done].
    cbn. by rewrite <- !app_assoc.
Qed.

Lemma marshalRules_documents (rs : list chronosphereRule) (outputYaml : bytes) :
  marshalRules rs outputYaml =
  match ruleDocuments rs with
  | inl docs => inl (outputYaml ++ concat docs)
  | inr err => inr err
  end.
Proof.
  unfold ruleDocuments. revert outputYaml.
  induction rs as [|r rs IH]; intros outputYaml;
    cbn [marshalRules documents].
  - cbn. by rewrite app_nil_r.
  - cbn [NewChronosphereRuleYAML ry_Api_version ry_Kind].
    destruct (yaml_Marshal _) as [doc|err]; [|done].
    rewrite IH. destruct (documents _ _ rs) as [docs|err]; [|done].
    cbn. by rewrite <- !app_assoc.
Qed.

Lemma length_documents {A : Type} (encode : A → bytes + error)
    (stage : string) (l : list A) (docs : list bytes) :
  documents encode stage l = inl docs → length docs = length l.
Proof.
  revert docs. induction l as [|x l IH]; intros docs; cbn.
  - by intros [= <-].
  - destruct (encode x); [|done].
    destruct (documents encode stage l); [|done].
    intros [= <-]. cbn. f_equal. by apply IH.
Qed.

(** The renderer, loop by loop, in the words of the specification. *)
Lemma rawChronosphereYAML_spec (range : MapRange chronosphereCollection)
    (slos : list StorageSLO) (logger : Logger) :
  rawChronosphereYAML range slos logger =
  if decide (size (serviceNames slos) = 0) then (0%Z, [], Some ErrNoSLORules)
  else
    match collectionDocuments (emittedCollections range slos) with
    | inr err => (0%Z, [], Some err)
    | inl cdocs =>
        match ruleDocuments (specPlatformRules slos) with
        | inr err => (0%Z, [], Some err)
        | inl rdocs =>
            (Z.of_nat (size (serviceNames slos)),
             concat cdocs ++ concat rdocs, None)
        end
    end.
Proof.
  unfold rawChronosphereYAML, emittedCollections.
  pose proof (collect_rules slos) as Hr. pose proof (size_collect slos) as Hs.
  destruct (collect slos) as [m rs]. cbn [fst snd] in *. subst rs.
  rewrite Hs, marshalCollections_documents.
  destruct (decide (size (serviceNames slos) = 0)) as [->|Hn]; [done|].
  destruct (Z.eqb_spec (Z.of_nat (size (serviceNames slos))) 0); [lia|].
  destruct (collectionDocuments _) as [cdocs|err]; [|done].
  rewrite marshalRules_documents.
  by destruct (ruleDocuments _) as [rdocs|err].
Qed.

Lemma table_slugs (slos : list StorageSLO) :
  col_Slug <$> (map_to_list (collect slos).1).*2 =
  (map_to_list (collect slos).1).*1.
Proof.
  rewrite <- list_fmap_compose. apply list_fmap_ext. intros i [k c] Hi. cbn.
  apply list_elem_of_lookup_2, elem_of_map_to_list in Hi.
  by apply collect_entry in Hi as (slo & _ & -> & ->).
Qed.

Lemma emitted_Permutation (range : MapRange chronosphereCollection)
    (slos : list StorageSLO) :
  valid_range range →
  emittedCollections range slos ≡ₚ (map_to_list (collect slos).1).*2.
Proof. intros Hr. unfold emittedCollections. by rewrite (Hr _). Qed.

Lemma emitted_NoDup (range : MapRange chronosphereCollection)
    (slos : list StorageSLO) :
  valid_range range → NoDup (col_Slug <$> emittedCollections range slos).
Proof.
  intros Hr. rewrite (emitted_Permutation _ _ Hr), table_slugs.
  apply NoDup_fst_map_to_list.
Qed.

Lemma elem_of_emitted (range : MapRange chronosphereCollection)
    (slos : list StorageSLO) (c : chronosphereCollection) :
  valid_range range →
  c ∈ emittedCollections range slos ↔
  (collect slos).1 !! col_Slug c = Some c.
Proof.
  intros Hr. rewrite (emitted_Permutation _ _ Hr), list_elem_of_fmap. split.
  - intros ([k c'] & -> & Hin). apply elem_of_map_to_list in Hin. cbn.
    by destruct (collect_entry _ _ _ Hin) as (slo & _ & -> & ->).
  - intros Hc. exists (col_Slug c, c). split; [done|].
    by apply elem_of_map_to_list.
Qed.

Lemma length_emitted (range : MapRange chronosphereCollection)
    (slos : list StorageSLO) :
  valid_range range →
  length (emittedCollections range slos) = size (serviceNames slos).
Proof.
  intros Hr. rewrite (emitted_Permutation _ _ Hr), length_fmap.
  by rewrite length_map_to_list, size_collect.
Qed.

(** In a list without two elements of the same key, the elements of key
    [k] are at most one. *)
Lemma filter_key_NoDup {A K : Type} `{EqDecision K} (f : A → K)
    (l : list A) (x : A) :
  NoDup (f <$> l) → x ∈ l → filter (λ y, f y = f x) l = [x].
Proof.
  induction l as [|y l IH]; intros Hnd Hin; [by apply elem_of_nil in Hin|].
  rewrite fmap_cons in Hnd. apply NoDup_cons in Hnd as [Hy Hnd].
  rewrite filter_cons. apply elem_of_cons in Hin as [->|Hin].
  - rewrite decide_True by done. f_equal.
    destruct (filter (λ z, f z = f y) l) as [|z l'] eqn:Hf; [done|].
    assert (Hz : z ∈ filter (λ z, f z = f y) l) by (rewrite Hf; left).
    apply list_elem_of_filter in Hz as [Hz1 Hz2].
    exfalso. apply Hy. rewrite <- Hz1. by apply list_elem_of_fmap_2.
  - rewrite decide_False; [by apply IH|].
    intros Heq. apply Hy. rewrite Heq. by apply list_elem_of_fmap_2.
Qed.

Lemma emitted_of_service (range : MapRange chronosphereCollection)
    (slos : list StorageSLO) (s : string) :
  valid_range range →
  filter (λ c, col_Slug c = "sloth-slo-" +:+ s) (emittedCollections range slos)
  = option_list (lastOfService s slos).
Proof.
  intros Hr. rewrite <- collect_lookup_service.
  destruct ((collect slos).1 !! ("sloth-slo-" +:+ s)) as [c|] eqn:Hc; cbn.
  - destruct (collect_entry _ _ _ Hc) as (slo & _ & Hslo & Hk).
    assert (Hslug : col_Slug c = "sloth-slo-" +:+ s) by (by rewrite Hslo, Hk). 
    rewrite <- Hslug.
    apply (filter_key_NoDup col_Slug); [by apply emitted_NoDup|].
    apply elem_of_emitted; [done|]. by rewrite Hslug.
  - destruct (filter _ _) as [|c l] eqn:Hf; [done|].
    assert (Hin : c ∈ filter (λ c, col_Slug c = "sloth-slo-" +:+ s)
                       (emittedCollections range slos)) by (rewrite Hf; left).
    apply list_elem_of_filter in Hin as [Hslug Hin].
    apply elem_of_emitted in Hin; [|done]. congruence.
Qed.

Lemma collect_lookup_iff (slos : list StorageSLO) (k : string)
    (c : chronosphereCollection) :
  (collect slos).1 !! k = Some c ↔
  ∃ slo, slo ∈ slos ∧ c = slothCollection slo ∧ k = col_Slug c.
Proof.
  split.
  - intros H. destruct (collect_entry _ _ _ H) as (slo & Hin & -> & ->).
    by exists slo.
  - intros (slo & Hin & -> & ->).
    change (col_Slug (slothCollection slo))
      with ("sloth-slo-" +:+ Service (SLO_ slo)).
    rewrite collect_lookup_service.
    assert (Hs : is_Some (lastOfService (Service (SLO_ slo)) slos)).
    { apply lastOfService_is_Some, elem_of_list_to_set, list_elem_of_fmap.
      by exists slo. }
    destruct Hs as [c Hc]. rewrite Hc. f_equal.
    unfold lastOfService in Hc. apply fmap_Some in Hc as (slo' & Hl & ->).
    apply last_Some_elem_of, list_elem_of_filter in Hl as [Hl _].
    unfold slothCollection. by rewrite Hl.
Qed.

Lemma emitted_input_order (range1 range2 : MapRange chronosphereCollection)
    (slos1 slos2 : list StorageSLO) :
  valid_range range1 → valid_range range2 → slos1 ≡ₚ slos2 →
  emittedCollections range1 slos1 ≡ₚ emittedCollections range2 slos2.
Proof.
  intros Hr1 Hr2 Hp. apply NoDup_Permutation.
  - eapply NoDup_fmap_1, emitted_NoDup, Hr1.
  - eapply NoDup_fmap_1, emitted_NoDup, Hr2.
  - intros c. rewrite !elem_of_emitted, !collect_lookup_iff by done.
    by setoid_rewrite Hp.
Qed.

Lemma documents_inl {A : Type} (encode : A → bytes + error) (stage : string)
    (l : list A) (docs : list bytes) :
  documents encode stage l = inl docs →
  docs = (λ x, match encode x with
               | inl doc => doc ++ boundary
               | inr _ => []
               end) <$> l.
Proof.
  revert docs. induction l as [|x l IH]; intros docs; cbn.
  - by intros [= <-].
  - destruct (encode x); [|done].
    destruct (documents encode stage l); [|done].
    intros [= <-]. f_equal. by apply IH.
Qed.

Lemma documents_inr {A : Type} (encode : A → bytes + error) (stage : string)
    (l : list A) (err : error) :
  documents encode stage l = inr err → ∃ cause, err = wrapError stage cause.
Proof.
  induction l as [|x l IH]; cbn; [done|].
  destruct (encode x) as [doc|cause]; [|intros [= <-]; by exists cause].
  destruct (documents encode stage l); [done|].
  intros [= <-]. by apply IH.
Qed.

Lemma documents_succeeds_iff {A : Type} (encode : A → bytes + error)
    (stage : string) (l : list A) :
  (∃ docs, documents encode stage l = inl docs) ↔
  Forall (λ x, ∃ doc, encode x = inl doc) l.
Proof.
  induction l as [|x l IH]; cbn.
  - split; [constructor|by eexists].
  - rewrite Forall_cons, <- IH. destruct (encode x) as [doc|err].
    + destruct (documents encode stage l) as [docs|err].
      * split; [intros _; split; by eexists|by eexists].
      * split; [by intros [? ?]|by intros [_ [? ?]]].
    + split; [by intros [? ?]|by intros [[? ?] _]].
Qed.

Lemma serviceNames_size_0 (slos : list StorageSLO) :
  size (serviceNames slos) = 0 ↔ slos = [].
Proof.
  split; [|by intros ->].
  intros H0%size_empty_inv. destruct slos as [|slo slos]; [done|].
  unfold serviceNames in H0. cbn in H0. set_solver.
Qed.

Lemma documents_Forall2 {A : Type} (encode : A → bytes + error)
    (stage : string) (l : list A) (docs : list bytes) :
  documents encode stage l = inl docs ↔
  Forall2 (λ x doc, ∃ d, encode x = inl d ∧ doc = d ++ boundary) l docs.
Proof.
  revert docs. induction l as [|x l IH]; intros docs; cbn.
  - split; [intros [= <-]; constructor|by intros ->%Forall2_nil_inv_l].
  - split.
    + destruct (encode x) as [d|] eqn:Hd; [|done].
      destruct (documents encode stage l) as [docs'|] eqn:Hl; [|done].
      intros [= <-]. constructor; [by exists d|by apply IH].
    + intros (doc & docs' & (d & Hd & ->) & Hl & ->)%Forall2_cons_inv_l.
      apply IH in Hl. by rewrite Hd, Hl.
Qed.

(** The documents of a permuted list are the same documents, permuted. *)
Lemma documents_Permutation {A : Type} (encode : A → bytes + error)
    (stage : string) (l1 l2 : list A) (docs1 : list bytes) :
  l1 ≡ₚ l2 → documents encode stage l1 = inl docs1 →
  ∃ docs2, documents encode stage l2 = inl docs2 ∧ docs1 ≡ₚ docs2.
Proof.
  intros Hp H1.
  assert (∃ docs2, documents encode stage l2 = inl docs2) as [docs2 H2].
  { apply documents_succeeds_iff. rewrite <- Hp.
    apply (documents_succeeds_iff encode stage). by exists docs1. }
  exists docs2. split; [done|].
  apply documents_inl in H1, H2. by rewrite H1, H2, Hp.
Qed.

(** The renderer on a valid visit: the sentinel on the empty input, and
    otherwise the documents of the emitted Collections and of the rule
    resources. *)
Lemma rawChronosphereYAML_documents (range : MapRange chronosphereCollection)
    (slos : list StorageSLO) (logger : Logger) :
  valid_range range →
  rawChronosphereYAML range slos logger =
  match slos with
  | [] => (0%Z, [], Some ErrNoSLORules)
  | _ => renderDocuments (emittedCollections range slos) (specPlatformRules slos)
  end.
Proof.
  intros Hr. rewrite rawChronosphereYAML_spec. unfold renderDocuments.
  rewrite length_emitted by done.
  destruct (decide (size (serviceNames slos) = 0)) as [H0|H0].
  - apply serviceNames_size_0 in H0. by subst.
  - destruct slos; [done|]. done.
Qed.

(** C3. In the platform-resource flavor the rule resources are, unit
    after unit, one per SLI-error recording rule and then one per
    metadata recording rule: slug and name are
    "sloth-slo-sli-recordings-" + objective ID + "-" + the record name
    with every colon replaced by an underscore, the interval is 300
    seconds, the metric name is the record name, the expression is
    copied and the label-add policy is the rule's labels ([platformRule]);
    alert rules contribute nothing; these resources are what the call
    encodes after the Collection documents. *)
Theorem platform_rules_of_recording_rules
    (range : MapRange chronosphereCollection) (slos : list StorageSLO)
    (logger : Logger) :
  (collect slos).2 = specPlatformRules slos ∧
  length (collect slos).2 = recordingRules slos ∧
  (∀ alerts, (collect (setAlerts alerts <$> slos)).2 = (collect slos).2) ∧
  rawChronosphereYAML range slos logger =
    if decide (size (serviceNames slos) = 0)
    then (0%Z, [], Some ErrNoSLORules)
    else
      match collectionDocuments (emittedCollections range slos) with
      | inr err => (0%Z, [], Some err)
      | inl cdocs =>
          match ruleDocuments (specPlatformRules slos) with
          | inr err => (0%Z, [], Some err)
          | inl rdocs =>
              (Z.of_nat (size (serviceNames slos)),
               concat cdocs ++ concat rdocs, None)
          end
      end.
Proof.
  split_and!.
  - apply collect_rules.
  - rewrite collect_rules. unfold recordingRules.
    induction slos as [|slo slos IH]; [done|].
    change (slo :: slos) with ([slo] ++ slos).
    rewrite specPlatformRules_app, length_app, IH. cbn.
    rewrite app_nil_r, length_app, !length_fmap. lia.
  - intros alerts. rewrite !collect_rules. unfold specPlatformRules.
    induction slos as [|slo slos IH]; [done|]. cbn. by rewrite IH.
  - apply rawChronosphereYAML_spec.
Qed.

(** C5. For any objective, the resource built for an SLI-error recording
    rule and the one built for a metadata recording rule have the same
    slug and the same name when the two record names are equal after the
    replacement of colons by underscores. *)
Theorem sli_and_metadata_ids_collide (slo : StorageSLO)
    (c1 c2 : chronosphereCollection) (sli meta : Rule) :
  colons_to_underscores (Record_ sli) = colons_to_underscores (Record_ meta) →
  cr_Slug (sliChronoRule slo c1 sli) = cr_Slug (metaChronoRule slo c2 meta) ∧
  cr_Name (sliChronoRule slo c1 sli) = cr_Name (metaChronoRule slo c2 meta).
Proof.
  intros H. unfold sliChronoRule, metaChronoRule. cbn.
  by rewrite !strings_Replace_colons, H.
Qed.

(** C6. For every input the platform-resource flavor emits exactly one
    Collection per distinct service name, with slug "sloth-slo-" + the
    service name: it is the collection derived from the last unit of that
    service, and no other collection is emitted, however many units share
    a service name and in whatever order the units come. What the
    renderer returns is built from these Collections: on a non-empty
    input, their documents, one each, followed by the documents of the
    rule resources, with their number as the count. *)
Theorem one_collection_per_service
    (range : MapRange chronosphereCollection) (slos : list StorageSLO) :
  valid_range range →
  (∀ s, filter (λ c, col_Slug c = "sloth-slo-" +:+ s)
               (emittedCollections range slos)
        = option_list (lastOfService s slos)) ∧
  (∀ s, s ∈ serviceNames slos →
        ∃ c, filter (λ c, col_Slug c = "sloth-slo-" +:+ s)
                    (emittedCollections range slos) = [c]) ∧
  (∀ c, c ∈ emittedCollections range slos →
        ∃ s, s ∈ serviceNames slos ∧ col_Slug c = "sloth-slo-" +:+ s) ∧
  length (emittedCollections range slos) = size (serviceNames slos) ∧
  (∀ range' slos', valid_range range' → slos' ≡ₚ slos →
        emittedCollections range' slos' ≡ₚ emittedCollections range slos) ∧
  (∀ logger,
     rawChronosphereYAML range slos logger =
     match slos with
     | [] => (0%Z, [], Some ErrNoSLORules)
     | _ => renderDocuments (emittedCollections range slos)
                            (specPlatformRules slos)
     end) ∧
  (∀ logger n out, rawChronosphereYAML range slos logger = (n, out, None) →
        n = Z.of_nat (size (serviceNames slos)) ∧
        ∃ cdocs rdocs,
          collectionDocuments (emittedCollections range slos) = inl cdocs ∧
          ruleDocuments (specPlatformRules slos) = inl rdocs ∧
          Forall2 collectionDocument (emittedCollections range slos) cdocs ∧
          Forall2 ruleDocument (specPlatformRules slos) rdocs ∧
          length cdocs = size (serviceNames slos) ∧
          out = concat cdocs ++ concat rdocs).
Proof.
  intros Hr. split_and!.
  - intros s. by apply emitted_of_service.
  - intros s Hs. rewrite emitted_of_service by done.
    apply lastOfService_is_Some in Hs as [c ->]. by exists c.
  - intros c Hc. apply elem_of_emitted in Hc; [|done].
    destruct (collect_entry _ _ _ Hc) as (slo & Hin & -> & Hk).
    exists (Service (SLO_ slo)). split; [|done].
    apply elem_of_list_to_set, list_elem_of_fmap. by exists slo.
  - by apply length_emitted.
  - intros range' slos' Hr' Hp. by apply emitted_input_order.
  - intros logger. by apply rawChronosphereYAML_documents.
  - intros logger n out. rewrite rawChronosphereYAML_spec.
    destruct (decide _); [done|].
    destruct (collectionDocuments _) as [cdocs|] eqn:Hc; [|done].
    destruct (ruleDocuments _) as [rdocs|] eqn:Hrd; [|done].
    intros [= <- <-]. split; [done|]. exists cdocs, rdocs.
    split_and!; [done|done| | | |done].
    + by apply documents_Forall2 in Hc.
    + by apply documents_Forall2 in Hrd.
    + apply length_documents in Hc. by rewrite Hc, length_emitted.
Qed.

Lemma Permutation_short {A : Type} (l1 l2 : list A) :
  l1 ≡ₚ l2 → (length l1 ≤ 1)%nat → l1 = l2.
Proof.
  intros Hp Hl. destruct l1 as [|x [|y l1]]; cbn in Hl; [| |lia].
  - by apply Permutation_nil_l in Hp.
  - by apply Permutation_singleton_l in Hp.
Qed.

(** C4, as the code has it. Two calls of the platform-resource renderer
    on the same input emit the same Collection documents up to their
    order, which is the order of the visit of the table and is not
    fixed, and then the same rule documents in the same order: each call
    returns the documents of the Collections in the order of its visit
    followed by the documents of the rule resources of the input, one
    call succeeds exactly when the other does, and the counts agree. The
    two outputs are equal when the two visits agree, and so whenever the
    input has at most one distinct service name. *)
Theorem chronosphere_stable_up_to_collection_order
    (range1 range2 : MapRange chronosphereCollection)
    (slos : list StorageSLO) (logger1 logger2 : Logger) :
  valid_range range1 → valid_range range2 →
  emittedCollections range1 slos ≡ₚ emittedCollections range2 slos ∧
  (emittedCollections range1 slos = emittedCollections range2 slos →
   rawChronosphereYAML range1 slos logger1 =
   rawChronosphereYAML range2 slos logger2) ∧
  ((size (serviceNames slos) ≤ 1)%nat →
   rawChronosphereYAML range1 slos logger1 =
   rawChronosphereYAML range2 slos logger2) ∧
  rawChronosphereYAML range1 slos logger1 =
    match slos with
    | [] => (0%Z, [], Some ErrNoSLORules)
    | _ => renderDocuments (emittedCollections range1 slos)
                           (specPlatformRules slos)
    end ∧
  rawChronosphereYAML range2 slos logger2 =
    match slos with
    | [] => (0%Z, [], Some ErrNoSLORules)
    | _ => renderDocuments (emittedCollections range2 slos)
                           (specPlatformRules slos)
    end ∧
  (∀ cdocs1,
     collectionDocuments (emittedCollections range1 slos) = inl cdocs1 →
     ∃ cdocs2,
       collectionDocuments (emittedCollections range2 slos) = inl cdocs2 ∧
       cdocs1 ≡ₚ cdocs2) ∧
  ((rawChronosphereYAML range1 slos logger1).2 = None ↔
   (rawChronosphereYAML range2 slos logger2).2 = None) ∧
  (∀ n1 out1 n2 out2,
     rawChronosphereYAML range1 slos logger1 = (n1, out1, None) →
     rawChronosphereYAML range2 slos logger2 = (n2, out2, None) →
     n1 = n2 ∧
     ∃ cdocs1 cdocs2 rdocs,
       Forall2 collectionDocument (emittedCollections range1 slos) cdocs1 ∧
       Forall2 collectionDocument (emittedCollections range2 slos) cdocs2 ∧
       Forall2 ruleDocument (specPlatformRules slos) rdocs ∧
       cdocs1 ≡ₚ cdocs2 ∧
       out1 = concat cdocs1 ++ concat rdocs ∧
       out2 = concat cdocs2 ++ concat rdocs).
Proof.
  intros Hr1 Hr2.
  assert (Hp : emittedCollections range1 slos ≡ₚ emittedCollections range2 slos)
    by (by apply emitted_input_order).
  assert (Heq : emittedCollections range1 slos = emittedCollections range2 slos →
                rawChronosphereYAML range1 slos logger1 =
                rawChronosphereYAML range2 slos logger2).
  { intros H. by rewrite !rawChronosphereYAML_spec, H. }
  assert (Hdocs : ∀ r1 r2 cdocs1,
            emittedCollections r1 slos ≡ₚ emittedCollections r2 slos →
            collectionDocuments (emittedCollections r1 slos) = inl cdocs1 →
            ∃ cdocs2,
              collectionDocuments (emittedCollections r2 slos) = inl cdocs2 ∧
              cdocs1 ≡ₚ cdocs2).
  { intros r1 r2 cdocs1 Hp12. by apply documents_Permutation. }
  split_and!; [done|done| | | | | |].
  - intros Hs. apply Heq, Permutation_short; [done|].
    by rewrite length_emitted.
  - by apply rawChronosphereYAML_documents.
  - by apply rawChronosphereYAML_documents.
  - intros cdocs1. by apply Hdocs.
  - rewrite !rawChronosphereYAML_spec. destruct (decide _); [done|].
    destruct (collectionDocuments (emittedCollections range1 slos))
      as [cdocs1|e1] eqn:H1;
      destruct (collectionDocuments (emittedCollections range2 slos))
        as [cdocs2|e2] eqn:H2.
    + by destruct (ruleDocuments _).
    + destruct (Hdocs range1 range2 cdocs1 Hp H1) as (? & ? & _). congruence.
    + symmetry in Hp.
      destruct (Hdocs range2 range1 cdocs2 Hp H2) as (? & ? & _). congruence.
    + done.
  - intros n1 out1 n2 out2. rewrite !rawChronosphereYAML_spec.
    destruct (decide _); [done|].
    destruct (collectionDocuments (emittedCollections range1 slos))
      as [cdocs1|] eqn:H1; [|done].
    destruct (collectionDocuments (emittedCollections range2 slos))
      as [cdocs2|] eqn:H2; [|by destruct (ruleDocuments _)].
    destruct (ruleDocuments _) as [rdocs|] eqn:Hrd; [|done].
    intros [= <- <-] [= <- <-]. split; [done|].
    exists cdocs1, cdocs2, rdocs. split_and!; [| | | |done|done].
    + by apply documents_Forall2 in H1.
    + by apply documents_Forall2 in H2.
    + by apply documents_Forall2 in Hrd.
    + destruct (Hdocs range1 range2 cdocs1 Hp H1) as (cdocs2' & H2' & Hperm).
      congruence.
Qed.

(** ** The orchestrator *)

Lemma rawPrometheusYAML_error (slos : list StorageSLO) (logger : Logger)
    (n : Z) (out : bytes) (err : error) :
  rawPrometheusYAML slos logger = (n, out, Some err) → renderFailure err.
Proof.
  unfold rawPrometheusYAML. destruct (_ =? _)%Z.
  - intros [= <- <- <-]. constructor.
  - destruct (yaml_Marshal _); [done|]. intros [= <- <- <-]. constructor.
Qed.

Lemma rawChronosphereYAML_error (range : MapRange chronosphereCollection)
    (slos : list StorageSLO) (logger : Logger)
    (n : Z) (out : bytes) (err : error) :
  rawChronosphereYAML range slos logger = (n, out, Some err) →
  renderFailure err.
Proof.
  rewrite rawChronosphereYAML_spec. destruct (decide _).
  { intros [= <- <- <-]. constructor. }
  destruct (collectionDocuments _) as [cdocs|e] eqn:Hc.
  - destruct (ruleDocuments _) as [rdocs|e] eqn:Hrd; [done|].
    intros [= <- <- <-]. apply documents_inr in Hrd as [cause ->]. constructor.
  - intros [= <- <- <-]. apply documents_inr in Hc as [cause ->]. constructor.
Qed.

(** A call either fails before the write and changes nothing, or it
    performs the write, once, with [written]. *)
Lemma StoreSLOs_cases (i : IOWriterGroupedRulesYAMLRepo)
    (range : MapRange chronosphereCollection) (ctx : Context_)
    (slos : list StorageSLO) (flavor : OutputFlavor) (st : State) :
  (∃ err, renderFailure err ∧ written range slos flavor = None ∧
          StoreSLOs i range ctx slos flavor st = (st, Some err)) ∨
  (∃ out rules, written range slos flavor = Some out ∧
     StoreSLOs i range ctx slos flavor st =
     match (writer i (sink st) out).2.2 with
     | Some err =>
         ({| sink := (writer i (sink st) out).1; logged := logged st |},
          Some (wrapError "could not write top disclaimer" err))
     | None =>
         ({| sink := (writer i (sink st) out).1;
             logged := logged st ++ [successEntry i ctx rules] |}, None)
     end).
Proof.
  unfold StoreSLOs, written, payloadOf.
  destruct slos as [|slo slos]; [left; eexists; split_and!; [constructor|done..]|].
  set (l := slo :: slos).
  replace (len l =? 0)%Z with false by (by symmetry; apply Z.eqb_neq).
  destruct (flavor =? PrometheusFlavor)%Z.
  { change (rawPrometheusYAML l (mkLogger []))
      with (rawPrometheusYAML l (WithCtxValues (logger i) ctx)).
    destruct (rawPrometheusYAML l _) as [[n out] [err|]] eqn:Hraw.
    - left. exists err. split_and!; [|done..].
      by eapply rawPrometheusYAML_error.
    - right. exists (writeTopDisclaimer out), n. split; [done|].
      by destruct (writer i (sink st) _) as [sink' [k [err|]]]. }
  destruct (flavor =? ChronosphereFlavor)%Z.
  { change (rawChronosphereYAML range l (mkLogger []))
      with (rawChronosphereYAML range l (WithCtxValues (logger i) ctx)).
    destruct (rawChronosphereYAML range l _) as [[n out] [err|]] eqn:Hraw.
    - left. exists err. split_and!; [|done..].
      by eapply rawChronosphereYAML_error.
    - right. exists (writeTopDisclaimer out), n. split; [done|].
      by destruct (writer i (sink st) _) as [sink' [k [err|]]]. }
  left. eexists. split_and!; [constructor|done..].
Qed.

(** C7. A call performs at most one write, and only after the rendering
    has succeeded: either it returns one of the errors that precede the
    write (input validation, unsupported flavor, no rules produced,
    encoding) and the sink and the log are as they were, or the sink is
    the one left by a single [Write] of [written] on the initial sink.
    No error of the first kind is ever returned with a changed state. *)
Theorem at_most_one_write_after_rendering
    (i : IOWriterGroupedRulesYAMLRepo)
    (range : MapRange chronosphereCollection) (ctx : Context_)
    (slos : list StorageSLO) (flavor : OutputFlavor) (st : State) :
  ((∃ err, renderFailure err ∧ written range slos flavor = None ∧
           StoreSLOs i range ctx slos flavor st = (st, Some err)) ∨
   (∃ out, written range slos flavor = Some out ∧
           sink (StoreSLOs i range ctx slos flavor st).1 =
             (writer i (sink st) out).1 ∧
           (StoreSLOs i range ctx slos flavor st).2 =
             wrapError "could not write top disclaimer" <$>
               (writer i (sink st) out).2.2)) ∧
  (∀ err, (StoreSLOs i range ctx slos flavor st).2 = Some err →
          renderFailure err →
          (StoreSLOs i range ctx slos flavor st).1 = st).
Proof.
  destruct (StoreSLOs_cases i range ctx slos flavor st)
    as [(err & Hf & Hw & Hs)|(out & rules & Hw & Hs)].
  - split; [left; by exists err|]. intros e _ _. by rewrite Hs.
  - split.
    + right. exists out. split; [done|]. rewrite Hs.
      by destruct (writer i (sink st) out) as [sink' [k [err|]]].
    + intros e. rewrite Hs.
      destruct (writer i (sink st) out) as [sink' [k [err|]]]; cbn; [|done].
      intros [= <-] Hf. inversion Hf.
Qed.

(** C8. On a non-empty input, a flavor that is neither [PrometheusFlavor]
    nor [ChronosphereFlavor] makes the call return the unsupported-flavor
    error with the sink and the log untouched: nothing is rendered and
    nothing is written. *)
Theorem unsupported_flavor_without_write
    (i : IOWriterGroupedRulesYAMLRepo)
    (range : MapRange chronosphereCollection) (ctx : Context_)
    (slos : list StorageSLO) (flavor : OutputFlavor) (st : State) :
  slos ≠ [] → flavor ≠ PrometheusFlavor → flavor ≠ ChronosphereFlavor →
  StoreSLOs i range ctx slos flavor st =
    (st, Some (errorString "unsupported flavor")) ∧
  written range slos flavor = None.
Proof.
  intros Hne Hp Hc. unfold StoreSLOs, written, payloadOf.
  destruct slos as [|slo slos]; [done|].
  replace (len (slo :: slos) =? 0)%Z with false
    by (by symmetry; apply Z.eqb_neq).
  apply Z.eqb_neq in Hp, Hc. by rewrite Hp, Hc.
Qed.

(** C10. The check of the input comes first: on an empty input the call
    returns the input-validation error "slo rules required" for every
    flavor value, in the enumeration or not, leaves the state as it was,
    and does not return the unsupported-flavor error. *)
Theorem empty_input_checked_before_flavor
    (i : IOWriterGroupedRulesYAMLRepo)
    (range : MapRange chronosphereCollection) (ctx : Context_)
    (flavor : OutputFlavor) (st : State) :
  StoreSLOs i range ctx [] flavor st =
    (st, Some (errorString "slo rules required")) ∧
  (StoreSLOs i range ctx [] flavor st).2 ≠
    Some (errorString "unsupported flavor").
Proof. done. Qed.

Lemma disclaimer_layout :
  list_byte_of_string disclaimer =
  list_byte_of_string newline ++ boundary ++
  list_byte_of_string bannerLines ++ list_byte_of_string newline.
Proof.
  unfold disclaimer, bannerLines, boundary.
  by rewrite !list_byte_of_string_app, <- !app_assoc.
Qed.

(** The disclaimer ends with a blank line: no boundary marker stands
    between it and what follows. *)
Lemma no_boundary_after_disclaimer (payload : bytes) :
  ¬ bannerThenBoundary (writeTopDisclaimer payload) payload.
Proof.
  unfold bannerThenBoundary, writeTopDisclaimer. intros [banner H].
  rewrite (app_assoc banner) in H. apply app_inv_tail in H.
  rewrite disclaimer_layout in H. unfold bannerLines in H.
  rewrite !list_byte_of_string_app, !app_assoc in H.
  change boundary with ([x2d; x2d; x2d] ++ [x0a]) in H at 2.
  rewrite (app_assoc banner) in H.
  apply app_inj_tail in H as [H _].
  change [x2d; x2d; x2d] with ([x2d; x2d] ++ [x2d]) in H.
  rewrite (app_assoc banner) in H.
  by apply app_inj_tail in H as [_ H].
Qed.

(** C9, as the code has it. What a successful call hands to the sink is
    the disclaimer followed at once by the payload of the renderer: a
    line break, the boundary marker, the two comment lines (tool name
    with the version, and the notice not to edit) and an empty line; the
    marker comes before the comment lines and none stands between the
    banner and the payload. *)
Theorem output_is_disclaimer_then_payload
    (i : IOWriterGroupedRulesYAMLRepo)
    (range : MapRange chronosphereCollection) (ctx : Context_)
    (slos : list StorageSLO) (flavor : OutputFlavor) (st st' : State) :
  StoreSLOs i range ctx slos flavor st = (st', None) →
  ∃ payload,
    payloadOf range slos flavor = Some payload ∧
    written range slos flavor =
      Some (list_byte_of_string disclaimer ++ payload) ∧
    sink st' =
      (writer i (sink st) (list_byte_of_string disclaimer ++ payload)).1 ∧
    (writer i (sink st) (list_byte_of_string disclaimer ++ payload)).2.2 = None ∧
    list_byte_of_string disclaimer =
      list_byte_of_string newline ++ boundary ++
      list_byte_of_string bannerLines ++ list_byte_of_string newline ∧
    ¬ bannerThenBoundary (list_byte_of_string disclaimer ++ payload) payload.
Proof.
  intros Hs.
  destruct (StoreSLOs_cases i range ctx slos flavor st)
    as [(err & _ & _ & Hs')|(out & rules & Hw & Hs')];
    rewrite Hs in Hs'; [done|].
  pose proof Hw as Hw'. unfold written in Hw'.
  destruct slos as [|slo slos]; [done|].
  apply fmap_Some in Hw' as (payload & Hp & ->).
  exists payload. split_and!; [done|done| | | |].
  - destruct (writer i (sink st) _) as [sink' [k [err|]]]; cbn in *; [done|].
    by injection Hs' as ->.
  - by destruct (writer i (sink st) _) as [sink' [k [err|]]].
  - apply disclaimer_layout.
  - apply no_boundary_after_disclaimer.
Qed.

(** ** No rules to store *)

Lemma allEmpty_nonEmptySequences (slos : list StorageSLO) :
  allEmpty slos → nonEmptySequences slos = 0.
Proof.
  unfold nonEmptySequences. induction 1 as [|slo slos (H1 & H2 & H3) _ IH];
    [done|]. cbn. by rewrite H1, H2, H3, IH.
Qed.

(** X1. On a non-empty input whose units all have their three rule
    sequences empty, the rule-group flavor returns [ErrNoSLORules] and
    leaves the sink and the log as they were. *)
Lemma no_rules_prometheus (i : IOWriterGroupedRulesYAMLRepo)
    (range : MapRange chronosphereCollection) (ctx : Context_)
    (slos : list StorageSLO) (st : State) :
  slos ≠ [] → allEmpty slos →
  StoreSLOs i range ctx slos PrometheusFlavor st = (st, Some ErrNoSLORules).
Proof.
  intros Hne He. unfold StoreSLOs.
  destruct slos as [|slo slos]; [done|].
  replace (len (slo :: slos) =? 0)%Z with false
    by (by symmetry; apply Z.eqb_neq).
  cbn [Z.eqb PrometheusFlavor].
  by rewrite rawPrometheusYAML_spec, allEmpty_nonEmptySequences.
Qed.

(** X2. The platform-resource renderer never returns [ErrNoSLORules] on a
    non-empty input: every unit enters the table, with or without rules,
    so the test on the size of the table cannot hold. *)
Lemma chronosphere_sentinel_unreachable
    (range : MapRange chronosphereCollection) (slos : list StorageSLO)
    (logger : Logger) :
  slos ≠ [] →
  (rawChronosphereYAML range slos logger).2 ≠ Some ErrNoSLORules.
Proof.
  intros Hne. rewrite rawChronosphereYAML_spec.
  destruct (decide (size (serviceNames slos) = 0)) as [H0|_].
  - apply size_empty_inv in H0. destruct slos as [|slo slos]; [done|].
    unfold serviceNames in H0. cbn in H0. set_solver.
  - destruct (collectionDocuments _) as [cdocs|e] eqn:Hc.
    + destruct (ruleDocuments _) as [rdocs|e] eqn:Hrd; [done|].
      apply documents_inr in Hrd as [cause ->]. done.
    + apply documents_inr in Hc as [cause ->]. done.
Qed.

(** ** The rule-group renderer: what the groups hold *)

Lemma groupOf_rules (kind objectiveID : string) (rules : list Rule) :
  groupOf kind objectiveID rules ≫= rg_Rules = rules.
Proof. destruct rules; cbn; by rewrite ?app_nil_r. Qed.

Lemma groupOf_Forall (kind objectiveID : string) (rules : list Rule) :
  Forall (λ g, rg_Rules g ≠ [] ∧ rg_Interval g = 0%Z)
         (groupOf kind objectiveID rules).
Proof. destruct rules; repeat constructor; done. Qed.

Lemma specRuleGroups_cons (slo : StorageSLO) (slos : list StorageSLO) :
  specRuleGroups (slo :: slos) =
  (groupOf "sli-recordings" (ID (SLO_ slo)) (SLIErrorRecRules (Rules slo)) ++
   groupOf "meta-recordings" (ID (SLO_ slo)) (MetadataRecRules (Rules slo)) ++
   groupOf "alerts" (ID (SLO_ slo)) (AlertRules (Rules slo))) ++
  specRuleGroups slos.
Proof. done. Qed.

(** X4. The rule-group renderer neither loses, duplicates nor reorders a
    rule: the rules of its groups, read group after group, are the rules
    of the input, unit after unit (SLI recordings, metadata recordings,
    alerts); and it never emits a group without rules or with an
    evaluation interval. *)
Theorem prometheus_rules_conserved (slos : list StorageSLO) :
  Groups (promRuleGroups slos) ≫= rg_Rules = allRules slos ∧
  Forall (λ g, rg_Rules g ≠ [] ∧ rg_Interval g = 0%Z)
         (Groups (promRuleGroups slos)).
Proof.
  rewrite promRuleGroups_spec. cbn [Groups]. split.
  - induction slos as [|slo slos IH]; [done|].
    rewrite specRuleGroups_cons, !bind_app, !groupOf_rules, IH.
    unfold allRules. cbn. by rewrite <- !app_assoc.
  - induction slos as [|slo slos IH]; [constructor|].
    rewrite specRuleGroups_cons, !Forall_app.
    split_and!; [apply groupOf_Forall..|done].
Qed.

Lemma group_name_of (kind objectiveID : string) (rules : list Rule)
    (name : string) :
  name ∈ rg_Name <$> groupOf kind objectiveID rules →
  name = "sloth-slo-" +:+ kind +:+ "-" +:+ objectiveID.
Proof.
  destruct rules; cbn; [by intros ?%elem_of_nil|].
  by intros ->%list_elem_of_singleton.
Qed.

Lemma groupOf_NoDup (kind objectiveID : string) (rules : list Rule) :
  NoDup (rg_Name <$> groupOf kind objectiveID rules).
Proof. destruct rules; cbn; [constructor|apply NoDup_singleton]. Qed.

(** The names of the groups of one unit. *)
Lemma unit_group_names (slo : StorageSLO) (name : string) :
  name ∈ rg_Name <$> specRuleGroups [slo] →
  name = "sloth-slo-sli-recordings-" +:+ ID (SLO_ slo) ∨
  name = "sloth-slo-meta-recordings-" +:+ ID (SLO_ slo) ∨
  name = "sloth-slo-alerts-" +:+ ID (SLO_ slo).
Proof.
  rewrite specRuleGroups_cons, app_nil_r, !fmap_app, !elem_of_app.
  intros [H|[H|H]]; apply group_name_of in H; auto.
Qed.

Lemma unit_group_names_NoDup (slo : StorageSLO) :
  NoDup (rg_Name <$> specRuleGroups [slo]).
Proof.
  rewrite specRuleGroups_cons, app_nil_r, !fmap_app.
  apply NoDup_app. split_and!; [apply groupOf_NoDup| |].
  - intros name H1 [H2|H2]%elem_of_app;
      apply group_name_of in H1, H2; by simplify_eq.
  - apply NoDup_app. split_and!; [apply groupOf_NoDup| |apply groupOf_NoDup].
    intros name H1 H2. apply group_name_of in H1, H2. by simplify_eq.
Qed.

Lemma group_names_of_input (slos : list StorageSLO) (name : string) :
  name ∈ rg_Name <$> specRuleGroups slos →
  ∃ slo, slo ∈ slos ∧ name ∈ rg_Name <$> specRuleGroups [slo].
Proof.
  induction slos as [|slo slos IH]; [by intros ?%elem_of_nil|].
  change (slo :: slos) with ([slo] ++ slos) at 1.
  rewrite specRuleGroups_app, fmap_app, elem_of_app. intros [H|H].
  - exists slo. split; [left|done].
  - destruct (IH H) as (slo' & Hin & Hn). exists slo'. split; [by right|done].
Qed.

(** X5. When the objective IDs of the input are pairwise distinct, the
    names of the groups of the rule-group document are pairwise distinct:
    the three kinds have different prefixes, and a prefix followed by two
    different IDs gives two different names. *)
Theorem prometheus_group_names_distinct (slos : list StorageSLO) :
  NoDup ((λ slo, ID (SLO_ slo)) <$> slos) →
  NoDup (rg_Name <$> Groups (promRuleGroups slos)).
Proof.
  rewrite promRuleGroups_spec. cbn [Groups].
  induction slos as [|slo slos IH]; [constructor|].
  rewrite fmap_cons. intros [Hid Hnd]%NoDup_cons.
  change (slo :: slos) with ([slo] ++ slos).
  rewrite specRuleGroups_app, fmap_app. apply NoDup_app.
  split_and!; [apply unit_group_names_NoDup| |by apply IH].
  intros name H1 H2.
  apply group_names_of_input in H2 as (slo' & Hin & H2).
  apply unit_group_names in H1, H2.
  assert (ID (SLO_ slo) = ID (SLO_ slo')) as Heq
    by (destruct H1 as [-> | [-> | ->]], H2 as [H2 | [H2 | H2]]; by simplify_eq).
  apply Hid. rewrite Heq. by apply (list_elem_of_fmap_2 (λ slo, ID (SLO_ slo))).
Qed.

(** X6. The rule-group renderer composes with the concatenation of
    inputs: the groups of [l1 ++ l2] are the groups of [l1] followed by
    the groups of [l2], and the count of the whole is the sum of the
    counts of the parts. *)
Theorem prometheus_groups_of_concatenation (l1 l2 : list StorageSLO) :
  Groups (promRuleGroups (l1 ++ l2)) =
    Groups (promRuleGroups l1) ++ Groups (promRuleGroups l2) ∧
  len (Groups (promRuleGroups (l1 ++ l2))) =
    (len (Groups (promRuleGroups l1)) + len (Groups (promRuleGroups l2)))%Z.
Proof.
  rewrite !promRuleGroups_spec. cbn [Groups].
  rewrite specRuleGroups_app. split; [done|].
  unfold len. rewrite length_app. lia.
Qed.

Lemma nonEmptySequences_bound (slos : list StorageSLO) :
  (nonEmptySequences slos ≤ 3 * length slos)%nat.
Proof.
  unfold nonEmptySequences. induction slos as [|slo slos IH]; [done|].
  rewrite fmap_cons. cbn [sum_list_with length]. unfold id in *.
  destruct (SLIErrorRecRules _), (MetadataRecRules _), (AlertRules _);
    cbn [nonEmpty]; lia.
Qed.

(** X7. The count returned by the rule-group renderer is never negative
    and never more than three times the number of units; it is at least
    one whenever the renderer returns no error, and zero whenever it
    returns one. *)
Theorem prometheus_count_bounds (slos : list StorageSLO) (logger : Logger) :
  (0 ≤ (rawPrometheusYAML slos logger).1.1 ≤ 3 * len slos)%Z ∧
  match (rawPrometheusYAML slos logger).2 with
  | None => (1 ≤ (rawPrometheusYAML slos logger).1.1)%Z
  | Some _ => (rawPrometheusYAML slos logger).1.1 = 0%Z ∧
              (rawPrometheusYAML slos logger).1.2 = []
  end.
Proof.
  rewrite rawPrometheusYAML_spec. pose proof (nonEmptySequences_bound slos).
  unfold len. destruct (decide _); [cbn; split; [lia|done]|].
  destruct (yaml_Marshal _); cbn; split; (lia || done).
Qed.

(** ** The platform-resource renderer: composition, references, outcome *)

(** X8. The first loop of the platform-resource renderer composes with
    the concatenation of inputs: the rules of [l1 ++ l2] are the rules of
    [l1] followed by those of [l2], and the table of [l1 ++ l2] is the
    table of [l1] overridden by the table of [l2] (a later unit wins). *)
Theorem chronosphere_collect_of_concatenation (l1 l2 : list StorageSLO) :
  (collect (l1 ++ l2)).2 = (collect l1).2 ++ (collect l2).2 ∧
  (collect (l1 ++ l2)).1 = (collect l2).1 ∪ (collect l1).1 ∧
  (∀ k, (collect (l1 ++ l2)).1 !! k =
        match (collect l2).1 !! k with
        | Some c => Some c
        | None => (collect l1).1 !! k
        end).
Proof.
  assert (Ht : (collect (l1 ++ l2)).1 = (collect l2).1 ∪ (collect l1).1).
  { induction l2 as [|slo l2 IH] using rev_ind.
    - rewrite app_nil_r. cbn. by rewrite (left_id_L ∅ (∪)).
    - rewrite app_assoc, !collect_snoc. cbn [fst].
      by rewrite IH, insert_union_l. }
  split_and!.
  - by rewrite !collect_rules, specPlatformRules_app.
  - done.
  - intros k. rewrite Ht, lookup_union.
    by destruct ((collect l2).1 !! k), ((collect l1).1 !! k).
Qed.

Lemma elem_of_specPlatformRules (slos : list StorageSLO) (r : chronosphereRule) :
  r ∈ specPlatformRules slos ↔
  ∃ slo rule, slo ∈ slos ∧ r = platformRule slo rule ∧
              (rule ∈ SLIErrorRecRules (Rules slo) ∨
               rule ∈ MetadataRecRules (Rules slo)).
Proof.
  unfold specPlatformRules. rewrite list_elem_of_bind. split.
  - intros (slo & [H|H]%elem_of_app & Hin);
      apply list_elem_of_fmap in H as (rule & -> & Hr);
      exists slo, rule; auto.
  - intros (slo & rule & Hin & -> & [Hr|Hr]); exists slo;
      (split; [|done]); apply elem_of_app; [left|right];
      by apply list_elem_of_fmap_2.
Qed.

(** X9. Every rule resource refers to a Collection that the same call
    emits, and to exactly one: among the emitted Collection documents
    there is one and only one whose slug is the rule's [bucket_slug]. *)
Theorem platform_rules_reference_emitted_collection
    (range : MapRange chronosphereCollection) (slos : list StorageSLO) :
  valid_range range →
  Forall (λ r, ∃ c, filter (λ c, col_Slug c = cr_Collection r)
                           (emittedCollections range slos) = [c])
         (collect slos).2.
Proof.
  intros Hr. rewrite collect_rules. apply Forall_forall. intros r Hin.
  apply elem_of_specPlatformRules in Hin as (slo & rule & Hin & -> & _).
  cbn [platformRule cr_Collection]. rewrite emitted_of_service by done.
  assert (Hs : is_Some (lastOfService (Service (SLO_ slo)) slos)).
  { apply lastOfService_is_Some, elem_of_list_to_set, list_elem_of_fmap.
    by exists slo. }
  destruct Hs as [c ->]. by exists c.
Qed.

Lemma elem_of_emitted_iff (range : MapRange chronosphereCollection)
    (slos : list StorageSLO) (c : chronosphereCollection) :
  valid_range range →
  c ∈ emittedCollections range slos ↔
  ∃ slo, slo ∈ slos ∧ c = slothCollection slo.
Proof.
  intros Hr. rewrite elem_of_emitted, collect_lookup_iff by done.
  split; intros (slo & Hin & Hc); exists slo; [by destruct Hc|by subst].
Qed.

(** X10. Whether the platform-resource renderer succeeds does not depend
    on the order of the visit of the table: it returns no error exactly
    when the input is not empty, the Collection of every unit encodes and
    every rule resource encodes. An input with a Collection that does not
    encode gives the error "could not format collections", whatever the
    rules are. *)
Theorem chronosphere_succeeds_iff
    (range : MapRange chronosphereCollection) (slos : list StorageSLO)
    (logger : Logger) :
  valid_range range →
  ((rawChronosphereYAML range slos logger).2 = None ↔
   slos ≠ [] ∧
   (∀ slo, slo ∈ slos → collectionEncodes (slothCollection slo)) ∧
   (∀ r, r ∈ specPlatformRules slos → ruleEncodes r)) ∧
  ((∃ slo, slo ∈ slos ∧ ¬ collectionEncodes (slothCollection slo)) →
   ∃ cause, rawChronosphereYAML range slos logger =
            (0%Z, [], Some (wrapError "could not format collections" cause))).
Proof.
  intros Hr.
  assert (Hc : (∃ docs, collectionDocuments (emittedCollections range slos)
                        = inl docs) ↔
               ∀ slo, slo ∈ slos → collectionEncodes (slothCollection slo)).
  { unfold collectionDocuments. rewrite documents_succeeds_iff, Forall_forall.
    split.
    - intros H slo Hin. apply H, elem_of_emitted_iff; [done|by exists slo].
    - intros H c (slo & Hin & ->)%elem_of_emitted_iff; [by apply H|done]. }
  assert (Hrd : (∃ docs, ruleDocuments (specPlatformRules slos) = inl docs) ↔
                ∀ r, r ∈ specPlatformRules slos → ruleEncodes r).
  { unfold ruleDocuments. by rewrite documents_succeeds_iff, Forall_forall. }
  rewrite rawChronosphereYAML_spec. split.
  - destruct (decide (size (serviceNames slos) = 0)) as [H0|H0].
    { apply serviceNames_size_0 in H0. split; [done|by intros [? _]]. }
    rewrite serviceNames_size_0 in H0.
    destruct (collectionDocuments _) as [cdocs|e].
    + destruct (ruleDocuments _) as [rdocs|e]; cbn.
      * split; [intros _|done]. split_and!; [done|apply Hc|apply Hrd]; by eexists.
      * split; [done|]. intros (_ & _ & [? ?]%Hrd). done.
    + cbn. split; [done|]. intros (_ & [? ?]%Hc & _). done.
  - intros (slo & Hin & Hfail).
    destruct (decide (size (serviceNames slos) = 0)) as [H0|H0].
    { apply serviceNames_size_0 in H0. subst. by apply elem_of_nil in Hin. }
    destruct (collectionDocuments _) as [cdocs|e] eqn:Hd.
    + exfalso. apply Hfail. apply Hc; [by eexists|done].
    + apply documents_inr in Hd as [cause ->]. by exists cause.
Qed.

Lemma documents_boundary {A : Type} (encode : A → bytes + error)
    (stage : string) (l : list A) (docs : list bytes) :
  documents encode stage l = inl docs →
  Forall (λ doc, boundary `suffix_of` doc) docs.
Proof.
  revert docs. induction l as [|x l IH]; intros docs; cbn.
  - intros [= <-]. constructor.
  - destruct (encode x) as [doc|]; [|done].
    destruct (documents encode stage l); [|done].
    intros [= <-]. constructor; [by eexists|by apply IH].
Qed.

Lemma length_specPlatformRules (slos : list StorageSLO) :
  length (specPlatformRules slos) = recordingRules slos.
Proof.
  unfold recordingRules. induction slos as [|slo slos IH]; [done|].
  change (slo :: slos) with ([slo] ++ slos).
  rewrite specPlatformRules_app, length_app, IH. cbn.
  rewrite app_nil_r, length_app, !length_fmap. lia.
Qed.

(** X11. The output of a successful platform-resource call is a sequence
    of documents, each ended by the boundary marker: first the document
    of each emitted Collection, which are one per distinct service name,
    in the order of the visit, then the document of each rule resource,
    one per recording rule, in the order of the input. The count the call
    returns is the number of Collections only, not of documents. *)
Theorem chronosphere_document_count
    (range : MapRange chronosphereCollection) (slos : list StorageSLO)
    (logger : Logger) (n : Z) (out : bytes) :
  valid_range range →
  rawChronosphereYAML range slos logger = (n, out, None) →
  n = Z.of_nat (size (serviceNames slos)) ∧
  (∀ s, s ∈ serviceNames slos →
        ∃ c, filter (λ c, col_Slug c = "sloth-slo-" +:+ s)
                    (emittedCollections range slos) = [c]) ∧
  ∃ cdocs rdocs,
    Forall2 collectionDocument (emittedCollections range slos) cdocs ∧
    Forall2 ruleDocument (collect slos).2 rdocs ∧
    out = concat (cdocs ++ rdocs) ∧
    length cdocs = size (serviceNames slos) ∧
    length rdocs = recordingRules slos ∧
    Forall (λ doc, boundary `suffix_of` doc) (cdocs ++ rdocs).
Proof.
  intros Hr. rewrite rawChronosphereYAML_spec. destruct (decide _); [done|].
  destruct (collectionDocuments _) as [cdocs|] eqn:Hc; [|done].
  destruct (ruleDocuments _) as [rdocs|] eqn:Hrd; [|done].
  intros [= <- <-]. split_and!; [done| |].
  { intros s Hs. rewrite emitted_of_service by done.
    apply lastOfService_is_Some in Hs as [c ->]. by exists c. }
  exists cdocs, rdocs. rewrite collect_rules. split_and!.
  - by apply documents_Forall2 in Hc.
  - by apply documents_Forall2 in Hrd.
  - by rewrite concat_app.
  - apply length_documents in Hc. by rewrite Hc, length_emitted.
  - apply length_documents in Hrd. by rewrite Hrd, length_specPlatformRules.
  - apply Forall_app. split; by eapply documents_boundary.
Qed.

(** ** The orchestrator: the write and the log *)

Lemma written_nonempty (range : MapRange chronosphereCollection)
    (slos : list StorageSLO) (flavor : OutputFlavor) (out : bytes) :
  written range slos flavor = Some out → slos ≠ [].
Proof. by destruct slos. Qed.

(** X12. When the rendering has succeeded and the [Write] of the sink
    returns an error, the call returns that error wrapped under "could not
    write top disclaimer", the sink is the one the failed [Write] left,
    and nothing is logged. *)
Theorem write_error_is_wrapped (i : IOWriterGroupedRulesYAMLRepo)
    (range : MapRange chronosphereCollection) (ctx : Context_)
    (slos : list StorageSLO) (flavor : OutputFlavor) (st : State)
    (out : bytes) (err : error) :
  written range slos flavor = Some out →
  (writer i (sink st) out).2.2 = Some err →
  StoreSLOs i range ctx slos flavor st =
    ({| sink := (writer i (sink st) out).1; logged := logged st |},
     Some (wrapError "could not write top disclaimer" err)).
Proof.
  intros Hw He.
  destruct (StoreSLOs_cases i range ctx slos flavor st)
    as [(e & _ & Hw' & _)|(out' & rules & Hw' & ->)]; [congruence|].
  assert (out' = out) as -> by congruence. by rewrite He.
Qed.

(** X13. A call returns no error exactly when the rendering succeeds and
    the single [Write] of the disclaimer and the payload returns none. *)
Theorem StoreSLOs_succeeds_iff (i : IOWriterGroupedRulesYAMLRepo)
    (range : MapRange chronosphereCollection) (ctx : Context_)
    (slos : list StorageSLO) (flavor : OutputFlavor) (st : State) :
  (StoreSLOs i range ctx slos flavor st).2 = None ↔
  ∃ out, written range slos flavor = Some out ∧
         (writer i (sink st) out).2.2 = None.
Proof.
  destruct (StoreSLOs_cases i range ctx slos flavor st)
    as [(e & _ & Hw & ->)|(out & rules & Hw & ->)].
  - split; [done|]. intros (out & Hw' & _). congruence.
  - split.
    + intros H. exists out. split; [done|].
      by destruct ((writer i (sink st) out).2.2).
    + intros (out' & Hw' & He). assert (out' = out) as -> by congruence.
      by rewrite He.
Qed.

(** The log after a call. *)
Lemma StoreSLOs_log (i : IOWriterGroupedRulesYAMLRepo)
    (range : MapRange chronosphereCollection) (ctx : Context_)
    (slos : list StorageSLO) (flavor : OutputFlavor) (st : State) :
  match (StoreSLOs i range ctx slos flavor st).2 with
  | Some _ => logged (StoreSLOs i range ctx slos flavor st).1 = logged st
  | None =>
      logged (StoreSLOs i range ctx slos flavor st).1 =
      logged st ++
      [successEntry i ctx
         (if (flavor =? PrometheusFlavor)%Z
          then Z.of_nat (nonEmptySequences slos)
          else Z.of_nat (size (serviceNames slos)))]
  end.
Proof.
  unfold StoreSLOs. destruct (len slos =? 0)%Z; [done|].
  destruct (flavor =? PrometheusFlavor)%Z.
  { rewrite rawPrometheusYAML_spec. destruct (decide _); [done|].
    destruct (yaml_Marshal _) as [out|e]; [|done].
    by destruct (writer i (sink st) _) as [sink' [k [e|]]]. }
  destruct (flavor =? ChronosphereFlavor)%Z; [|done].
  rewrite rawChronosphereYAML_spec. destruct (decide _); [done|].
  destruct (collectionDocuments _) as [cdocs|e]; [|done].
  destruct (ruleDocuments _) as [rdocs|e]; [|done].
  by destruct (writer i (sink st) _) as [sink' [k [e|]]].
Qed.

(** X14. A call logs only when it succeeds, and then exactly one entry,
    at level info, with the message "Prometheus rules written" and, after
    the key-values of the logger and of the context, the key "groups":
    the number of non-empty rule sequences in the rule-group flavor, the
    number of distinct service names in the platform-resource flavor.
    Every call that returns an error leaves the log as it was. *)
Theorem log_entry_only_on_success (i : IOWriterGroupedRulesYAMLRepo)
    (range : MapRange chronosphereCollection) (ctx : Context_)
    (slos : list StorageSLO) (flavor : OutputFlavor) (st : State) :
  match (StoreSLOs i range ctx slos flavor st).2 with
  | Some _ => logged (StoreSLOs i range ctx slos flavor st).1 = logged st
  | None =>
      logged (StoreSLOs i range ctx slos flavor st).1 =
      logged st ++
      [ {| entry_values :=
             (values (logger i) ++ ctx) ++
             [("groups",
               LogInt (if (flavor =? PrometheusFlavor)%Z
                       then Z.of_nat (nonEmptySequences slos)
                       else Z.of_nat (size (serviceNames slos))))];
           entry_level := "info";
           entry_msg := "Prometheus rules written" |} ]
  end.
Proof. apply StoreSLOs_log. Qed.

(** ** The identifiers of the rule resources *)

Lemma list_ascii_of_string_app (s t : string) :
  list_ascii_of_string (s +:+ t) =
  list_ascii_of_string s ++ list_ascii_of_string t.
Proof.
  induction s as [|c s IH]; [done|].
  change (String c s +:+ t) with (String c (s +:+ t)). cbn. by rewrite IH.
Qed.

Lemma colons_to_underscores_no_colon (s : string) :
  ¬ hasColon (colons_to_underscores s).
Proof.
  unfold hasColon. induction s as [|c s IH]; cbn; [by intros ?%elem_of_nil|].
  intros [H|H]%elem_of_cons; [|done].
  destruct (Ascii.eqb_spec c ":"); [done|congruence].
Qed.

Lemma colons_to_underscores_length (s : string) :
  String.length (colons_to_underscores s) = String.length s.
Proof. induction s as [|c s IH]; cbn; [done|by rewrite IH]. Qed.

Lemma colons_to_underscores_id (s : string) :
  ¬ hasColon s → colons_to_underscores s = s.
Proof.
  unfold hasColon. induction s as [|c s IH]; cbn; [done|].
  intros H. destruct (Ascii.eqb_spec c ":") as [->|_].
  - exfalso. apply H. left.
  - f_equal. apply IH. intros Hin. apply H. by right.
Qed.

(** X16. The replacement made on a record name, [strings.Replace(name,
    ":", "_", -1)], keeps the length of the name, leaves no colon in it,
    changes nothing in a name without colon, and is idempotent. *)
Theorem replaced_record_name (name : string) :
  String.length (strings_Replace name ":" "_" (-1)) = String.length name ∧
  ¬ hasColon (strings_Replace name ":" "_" (-1)) ∧
  (¬ hasColon name → strings_Replace name ":" "_" (-1) = name) ∧
  strings_Replace (strings_Replace name ":" "_" (-1)) ":" "_" (-1) =
    strings_Replace name ":" "_" (-1).
Proof.
  rewrite !strings_Replace_colons. split_and!.
  - apply colons_to_underscores_length.
  - apply colons_to_underscores_no_colon.
  - apply colons_to_underscores_id.
  - apply colons_to_underscores_id, colons_to_underscores_no_colon.
Qed.

(** X17. When no objective ID of the input holds a colon, no slug of a
    rule resource holds one; and the name of every rule resource is its
    slug. *)
Theorem platform_rule_slugs_colon_free (slos : list StorageSLO) :
  Forall (λ slo, ¬ hasColon (ID (SLO_ slo))) slos →
  Forall (λ r, ¬ hasColon (cr_Slug r) ∧ cr_Name r = cr_Slug r)
         (collect slos).2.
Proof.
  intros Hid. rewrite collect_rules. apply Forall_forall. intros r Hin.
  apply elem_of_specPlatformRules in Hin as (slo & rule & Hin & -> & _).
  split; [|done]. rewrite Forall_forall in Hid. specialize (Hid slo Hin).
  unfold hasColon in *. cbn [platformRule cr_Slug].
  rewrite !list_ascii_of_string_app, !elem_of_app.
  intros [H|[H|[H|H]]]; [|done| |].
  - vm_compute in H. repeat (apply elem_of_cons in H as [H|H]; [done|]).
    by apply elem_of_nil in H.
  - by apply list_elem_of_singleton in H.
  - by apply colons_to_underscores_no_colon in H.
Qed.

(** ** Alert rules in the platform-resource flavor *)

Lemma collect_setAlerts (alerts : StorageSLO → list Rule)
    (slos : list StorageSLO) :
  collect (setAlerts alerts <$> slos) = collect slos.
Proof.
  unfold collect. generalize (∅ : gmap string chronosphereCollection,
                              [] : list chronosphereRule).
  induction slos as [|slo slos IH]; intros acc; [done|].
  rewrite fmap_cons. cbn [foldl]. by rewrite IH.
Qed.

(** X18. The platform-resource flavor never reads the alert rules:
    replacing the alert rules of any unit by any others changes neither
    what the renderer returns nor what the call writes, logs and returns. *)
Theorem chronosphere_ignores_alert_rules (i : IOWriterGroupedRulesYAMLRepo)
    (range : MapRange chronosphereCollection) (ctx : Context_)
    (slos : list StorageSLO) (alerts : StorageSLO → list Rule)
    (logger : Logger) (st : State) :
  rawChronosphereYAML range (setAlerts alerts <$> slos) logger =
    rawChronosphereYAML range slos logger ∧
  StoreSLOs i range ctx (setAlerts alerts <$> slos) ChronosphereFlavor st =
    StoreSLOs i range ctx slos ChronosphereFlavor st.
Proof.
  assert (Hraw : ∀ l, rawChronosphereYAML range (setAlerts alerts <$> slos) l =
                      rawChronosphereYAML range slos l).
  { intros l. unfold rawChronosphereYAML. by rewrite collect_setAlerts. }
  split; [apply Hraw|].
  unfold StoreSLOs, len. by rewrite length_fmap, Hraw.
Qed.

End Storage.

(** ** The model on the sample collaborators *)

Section Examples.

Import Sample.

#[local] Existing Instance encodeGroups.
#[local] Existing Instance encodeCollection.
#[local] Existing Instance encodeRule.

Lemma valid_rangeStored {V : Type} : valid_range (@rangeStored V).
Proof. by intros m. Qed.

Lemma valid_rangeReversed {V : Type} : valid_range (@rangeReversed V).
Proof. intros m. unfold rangeReversed. by rewrite reverse_Permutation. Qed.

(** The example of the specification: objective "svc01" of service
    "checkout" with one SLI-error rule gives one group, named
    "sloth-slo-sli-recordings-svc01". *)
Example checkout_group :
  Groups (promRuleGroups [checkout]) =
  [ {| rg_Name := "sloth-slo-sli-recordings-svc01";
       rg_Interval := 0;
       rg_Rules := [recRule "slo:sli_error:checkout" "1 - up"] |} ].
Proof. reflexivity. Qed.

Example five_units_six_groups :
  rg_Name <$> Groups (promRuleGroups [checkout; checkout2; payments; alertsOnly; noRules])
  = [ "sloth-slo-sli-recordings-svc01";
      "sloth-slo-sli-recordings-svc02";
      "sloth-slo-meta-recordings-svc02";
      "sloth-slo-alerts-svc02";
      "sloth-slo-meta-recordings-svc03";
      "sloth-slo-alerts-svc04" ] ∧
  (rawPrometheusYAML [checkout; checkout2; payments; alertsOnly; noRules] logger0).1.1
  = 6%Z.
Proof. split; reflexivity. Qed.

(** A unit with alert rules only: no rule resource in the
    platform-resource flavor, one group in the rule-group flavor. *)
Example alerts_only :
  (collect [alertsOnly]).2 = [] ∧
  rg_Name <$> Groups (promRuleGroups [alertsOnly]) = ["sloth-slo-alerts-svc04"].
Proof. split; reflexivity. Qed.

(** Two units of the same service, in either order: one Collection. *)
Example same_service_one_collection :
  emittedCollections rangeStored [checkout; checkout2] = [slothCollection checkout] ∧
  emittedCollections rangeStored [checkout2; checkout] = [slothCollection checkout].
Proof. split; by vm_compute. Qed.

Example replace_examples :
  strings_Replace "slo:sli_error:checkout" ":" "_" (-1) = "slo_sli_error_checkout" ∧
  strings_Replace "a:b::c" ":" "_" 2 = "a_b_:c" ∧
  strings_Replace "aXYbXYXc" "XY" "--" (-1) = "a--b--Xc".
Proof. by vm_compute. Qed.

(** C2, on the code. A unit without any rule, platform-resource flavor:
    the call does not return [ErrNoSLORules]; it writes the disclaimer and
    one Collection document and returns no error. The rule-group flavor
    returns the sentinel on the same input and writes nothing. *)
Lemma chronosphere_writes_without_rules :
  allEmpty [noRules] ∧
  StoreSLOs "dev" (mkRepo recordingWriter logger0) rangeStored []
            [noRules] ChronosphereFlavor (mkState [] []) =
    (mkState
       [ list_byte_of_string
           (text [ "";
                   "---";
                   "# Code generated by Sloth (dev): https://github.com/slok/sloth.";
                   "# DO NOT EDIT.";
                   "";
                   "api_version: v1/config";
                   "kind: Collection";
                   "spec:";
                   "  slug: sloth-slo-idle";
                   "  name: sloth-slo-idle";
                   "  description: SLOs generated by Sloth";
                   "---" ]) ]
       [ mkLogEntry [("groups", LogInt 1)] "info" "Prometheus rules written" ],
     None) ∧
  StoreSLOs "dev" (mkRepo recordingWriter logger0) rangeStored []
            [noRules] PrometheusFlavor (mkState [] []) =
    (mkState [] [], Some ErrNoSLORules).
Proof.
  split_and!.
  - repeat constructor.
  - by vm_compute.
  - by vm_compute.
Qed.

(** C4, refuted as stated. Two services, the table visited in one order
    and in the other: both visits are allowed, and the two outputs are
    not equal. *)
Lemma collection_order_changes_output :
  valid_range (@rangeStored chronosphereCollection) ∧
  valid_range (@rangeReversed chronosphereCollection) ∧
  emittedCollections rangeStored [checkout; payments] =
    [slothCollection checkout; slothCollection payments] ∧
  emittedCollections rangeReversed [checkout; payments] =
    [slothCollection payments; slothCollection checkout] ∧
  rawChronosphereYAML rangeStored [checkout; payments] logger0 ≠
  rawChronosphereYAML rangeReversed [checkout; payments] logger0.
Proof.
  split_and!.
  - apply valid_rangeStored.
  - apply valid_rangeReversed.
  - by vm_compute.
  - by vm_compute.
  - intros H. apply (f_equal (λ r, take 70 r.1.2)) in H.
    vm_compute in H. discriminate H.
Qed.

Lemma chronosphere_stable_witness :
  valid_range (@rangeStored chronosphereCollection) ∧
  valid_range (@rangeReversed chronosphereCollection) ∧
  emittedCollections rangeStored [checkout; payments] ≡ₚ
  emittedCollections rangeReversed [checkout; payments] ∧
  rawChronosphereYAML rangeStored [checkout; payments] logger0 =
    renderDocuments (emittedCollections rangeStored [checkout; payments])
                    (specPlatformRules [checkout; payments]) ∧
  rawChronosphereYAML rangeReversed [checkout; payments] logger0 =
    renderDocuments (emittedCollections rangeReversed [checkout; payments])
                    (specPlatformRules [checkout; payments]) ∧
  ((rawChronosphereYAML rangeStored [checkout; payments] logger0).2 = None ↔
   (rawChronosphereYAML rangeReversed [checkout; payments] logger0).2 = None).
Proof.
  split_and!; [apply valid_rangeStored | apply valid_rangeReversed |..];
    pose proof (chronosphere_stable_up_to_collection_order
                  rangeStored rangeReversed [checkout; payments]
                  logger0 logger0 valid_rangeStored valid_rangeReversed)
      as (H1 & _ & _ & H4 & H5 & _ & H7 & _).
  - exact H1.
  - exact H4.
  - exact H5.
  - exact H7.
Defined.

Lemma sli_and_metadata_ids_collide_witness :
  colons_to_underscores (Record_ (recRule "slo:ratio" "rate(e[5m])")) =
  colons_to_underscores (Record_ (recRule "slo_ratio" "vector(1)")) ∧
  cr_Slug (sliChronoRule checkout (slothCollection checkout)
             (recRule "slo:ratio" "rate(e[5m])")) =
  cr_Slug (metaChronoRule checkout (slothCollection checkout)
             (recRule "slo_ratio" "vector(1)")) ∧
  cr_Name (sliChronoRule checkout (slothCollection checkout)
             (recRule "slo:ratio" "rate(e[5m])")) =
  cr_Name (metaChronoRule checkout (slothCollection checkout)
             (recRule "slo_ratio" "vector(1)")).
Proof.
  split; [reflexivity|].
  apply sli_and_metadata_ids_collide. reflexivity.
Defined.

Lemma one_collection_per_service_witness :
  valid_range (@rangeReversed chronosphereCollection) ∧
  (∀ s, s ∈ serviceNames [checkout; payments; checkout2] →
        ∃ c, filter (λ c, col_Slug c = "sloth-slo-" +:+ s)
                    (emittedCollections rangeReversed
                       [checkout; payments; checkout2]) = [c]) ∧
  length (emittedCollections rangeReversed [checkout; payments; checkout2]) =
  size (serviceNames [checkout; payments; checkout2]) ∧
  rawChronosphereYAML rangeReversed [checkout; payments; checkout2] logger0 =
    renderDocuments
      (emittedCollections rangeReversed [checkout; payments; checkout2])
      (specPlatformRules [checkout; payments; checkout2]) ∧
  rawChronosphereYAML rangeReversed [checkout; payments; checkout2] logger0 =
    (2%Z,
     (rawChronosphereYAML rangeReversed [checkout; payments; checkout2]
        logger0).1.2,
     None) ∧
  ∃ cdocs rdocs,
    collectionDocuments
      (emittedCollections rangeReversed [checkout; payments; checkout2])
      = inl cdocs ∧
    ruleDocuments (specPlatformRules [checkout; payments; checkout2])
      = inl rdocs ∧
    Forall2 collectionDocument
      (emittedCollections rangeReversed [checkout; payments; checkout2]) cdocs ∧
    Forall2 ruleDocument (specPlatformRules [checkout; payments; checkout2])
      rdocs ∧
    length cdocs = size (serviceNames [checkout; payments; checkout2]) ∧
    (rawChronosphereYAML rangeReversed [checkout; payments; checkout2]
       logger0).1.2 = concat cdocs ++ concat rdocs.
Proof.
  assert (Hok : rawChronosphereYAML rangeReversed
                  [checkout; payments; checkout2] logger0 =
                (2%Z,
                 (rawChronosphereYAML rangeReversed
                    [checkout; payments; checkout2] logger0).1.2,
                 None)) by (by vm_compute).
  split; [apply valid_rangeReversed|].
  pose proof (one_collection_per_service rangeReversed
                [checkout; payments; checkout2] valid_rangeReversed)
    as (_ & H2 & _ & H4 & _ & H6 & H7).
  split_and!; [exact H2|exact H4|exact (H6 logger0)|exact Hok|].
  exact (proj2 (H7 logger0 _ _ Hok)).
Defined.

Lemma unsupported_flavor_witness :
  [checkout] ≠ [] ∧ 7%Z ≠ PrometheusFlavor ∧ 7%Z ≠ ChronosphereFlavor ∧
  StoreSLOs "dev" (mkRepo recordingWriter logger0) rangeStored []
            [checkout] 7%Z (mkState [] []) =
    (mkState [] [], Some (errorString "unsupported flavor")) ∧
  written "dev" rangeStored [checkout] 7%Z = None.
Proof.
  split_and!; [done|done|done|..];
    apply (unsupported_flavor_without_write "dev"
             (mkRepo recordingWriter logger0) rangeStored []
             [checkout] 7%Z (mkState [] [])); done.
Defined.

(** C9, refuted as stated. A successful call of version "dev": what
    reaches the sink is the disclaimer and then the payload, and it is not
    of the form banner, boundary marker, payload. *)
Lemma boundary_stands_before_banner :
  StoreSLOs "dev" (mkRepo recordingWriter logger0) rangeStored []
            [checkout] PrometheusFlavor (mkState [] []) =
    (mkState [disclaimerDev ++ checkoutPayload]
             [mkLogEntry [("groups", LogInt 1)] "info" "Prometheus rules written"],
     None) ∧
  payloadOf rangeStored [checkout] PrometheusFlavor = Some checkoutPayload ∧
  ¬ bannerThenBoundary (disclaimerDev ++ checkoutPayload) checkoutPayload.
Proof.
  split_and!.
  - by vm_compute.
  - by vm_compute.
  - exact (no_boundary_after_disclaimer "dev" checkoutPayload).
Qed.

Lemma output_is_disclaimer_then_payload_witness :
  StoreSLOs "dev" (mkRepo recordingWriter logger0) rangeStored []
            [checkout; payments] ChronosphereFlavor (mkState [] []) =
    ((StoreSLOs "dev" (mkRepo recordingWriter logger0) rangeStored []
                [checkout; payments] ChronosphereFlavor (mkState [] [])).1,
     None) ∧
  ∃ payload,
    payloadOf rangeStored [checkout; payments] ChronosphereFlavor = Some payload ∧
    written "dev" rangeStored [checkout; payments] ChronosphereFlavor =
      Some (list_byte_of_string (disclaimer "dev") ++ payload).
Proof.
  assert (H : StoreSLOs "dev" (mkRepo recordingWriter logger0) rangeStored []
                [checkout; payments] ChronosphereFlavor (mkState [] []) =
              ((StoreSLOs "dev" (mkRepo recordingWriter logger0) rangeStored []
                  [checkout; payments] ChronosphereFlavor (mkState [] [])).1,
               None)) by (by vm_compute).
  split; [exact H|].
  destruct (output_is_disclaimer_then_payload "dev" _ _ _ _ _ _ _ H)
    as (payload & H1 & H2 & _).
  exists payload. exact (conj H1 H2).
Defined.

Lemma no_rules_prometheus_witness :
  [noRules] ≠ [] ∧ allEmpty [noRules] ∧
  StoreSLOs "dev" (mkRepo recordingWriter logger0) rangeStored []
            [noRules] PrometheusFlavor (mkState [] []) =
    (mkState [] [], Some ErrNoSLORules).
Proof.
  assert (He : allEmpty [noRules]) by (repeat constructor).
  split_and!; [done|exact He|].
  by apply no_rules_prometheus.
Defined.

Lemma chronosphere_sentinel_unreachable_witness :
  [noRules] ≠ [] ∧
  (rawChronosphereYAML rangeStored [noRules] logger0).2 ≠ Some ErrNoSLORules.
Proof.
  split; [done|]. by apply chronosphere_sentinel_unreachable.
Defined.

Lemma prometheus_group_names_distinct_witness :
  NoDup ((λ slo, ID (SLO_ slo)) <$> [checkout; checkout2; payments]) ∧
  NoDup (rg_Name <$> Groups (promRuleGroups [checkout; checkout2; payments])).
Proof.
  assert (H : NoDup ((λ slo, ID (SLO_ slo)) <$> [checkout; checkout2; payments])).
  { cbn. repeat (apply NoDup_cons; split; [set_solver|]). constructor. }
  split; [exact H|]. by apply prometheus_group_names_distinct.
Defined.

Lemma platform_rules_reference_witness :
  valid_range (@rangeReversed chronosphereCollection) ∧
  Forall (λ r, ∃ c, filter (λ c, col_Slug c = cr_Collection r)
                           (emittedCollections rangeReversed
                              [checkout; payments; checkout2]) = [c])
         (collect [checkout; payments; checkout2]).2.
Proof.
  split; [apply valid_rangeReversed|].
  apply platform_rules_reference_emitted_collection, valid_rangeReversed.
Defined.

Lemma chronosphere_succeeds_iff_witness :
  valid_range (@rangeStored chronosphereCollection) ∧
  ((rawChronosphereYAML rangeStored [checkout; payments] logger0).2 = None ↔
   [checkout; payments] ≠ [] ∧
   (∀ slo, slo ∈ [checkout; payments] → collectionEncodes (slothCollection slo)) ∧
   (∀ r, r ∈ specPlatformRules [checkout; payments] → ruleEncodes r)).
Proof.
  split; [apply valid_rangeStored|].
  exact (proj1 (chronosphere_succeeds_iff rangeStored [checkout; payments]
                  logger0 valid_rangeStored)).
Defined.

Lemma chronosphere_document_count_witness :
  valid_range (@rangeStored chronosphereCollection) ∧
  rawChronosphereYAML rangeStored [checkout; checkout2; payments] logger0 =
    (2%Z,
     (rawChronosphereYAML rangeStored [checkout; checkout2; payments] logger0).1.2,
     None) ∧
  ∃ cdocs rdocs,
    Forall2 collectionDocument
      (emittedCollections rangeStored [checkout; checkout2; payments]) cdocs ∧
    Forall2 ruleDocument (collect [checkout; checkout2; payments]).2 rdocs ∧
    (rawChronosphereYAML rangeStored [checkout; checkout2; payments] logger0).1.2
      = concat (cdocs ++ rdocs) ∧
    length cdocs = size (serviceNames [checkout; checkout2; payments]) ∧
    length rdocs = recordingRules [checkout; checkout2; payments] ∧
    Forall (λ doc, boundary `suffix_of` doc) (cdocs ++ rdocs).
Proof.
  assert (H : rawChronosphereYAML rangeStored [checkout; checkout2; payments]
                logger0 =
              (2%Z,
               (rawChronosphereYAML rangeStored [checkout; checkout2; payments]
                  logger0).1.2,
               None)) by (by vm_compute).
  split_and!; [apply valid_rangeStored|exact H|].
  exact (proj2 (proj2 (chronosphere_document_count rangeStored
                         [checkout; checkout2; payments] logger0 _ _
                         valid_rangeStored H))).
Defined.

Lemma write_error_is_wrapped_witness :
  written "dev" rangeStored [checkout] PrometheusFlavor =
    Some (disclaimerDev ++ checkoutPayload) ∧
  (closedWriter [] (disclaimerDev ++ checkoutPayload)).2.2 =
    Some (errorString "io: read/write on closed pipe") ∧
  StoreSLOs "dev" (mkRepo closedWriter logger0) rangeStored []
            [checkout] PrometheusFlavor (mkState [] []) =
    (mkState [] [],
     Some (wrapError "could not write top disclaimer"
             (errorString "io: read/write on closed pipe"))).
Proof.
  assert (Hw : written "dev" rangeStored [checkout] PrometheusFlavor =
               Some (disclaimerDev ++ checkoutPayload)) by (by vm_compute).
  split_and!; [exact Hw|reflexivity|].
  exact (write_error_is_wrapped "dev" (mkRepo closedWriter logger0)
           rangeStored [] [checkout] PrometheusFlavor (mkState [] [])
           _ _ Hw eq_refl).
Defined.

Lemma platform_rule_slugs_colon_free_witness :
  Forall (λ slo, ¬ hasColon (ID (SLO_ slo))) [checkout; payments] ∧
  Forall (λ r, ¬ hasColon (cr_Slug r) ∧ cr_Name r = cr_Slug r)
         (collect [checkout; payments]).2.
Proof.
  assert (H : Forall (λ slo, ¬ hasColon (ID (SLO_ slo))) [checkout; payments]).
  { repeat constructor; intros H; vm_compute in H;
      repeat (apply elem_of_cons in H as [H|H]; [done|]);
      by apply elem_of_nil in H. }
  split; [exact H|]. by apply platform_rule_slugs_colon_free.
Defined.

(** With an encoder that fails, the platform-resource flavor returns the
    error of the Collections and nothing is written. *)
Example failing_encoder :
  @StoreSLOs "dev" encodeGroups encodeFails encodeFails _
     (mkRepo recordingWriter logger0) rangeStored []
     [checkout] ChronosphereFlavor (mkState [] []) =
    (mkState [] [],
     Some (wrapError "could not format collections"
             (errorString "yaml: cannot marshal"))).
Proof. by vm_compute. Qed.

End Examples.

(** ** Counting the calls of [Write] *)

Section Calls.

Context (Version : string).
Context {MarshalGroups : Marshaler ruleGroupsYAMLv2}
        {MarshalCollection : Marshaler chronosphereCollectionYAML}
        {MarshalRule : Marshaler chronosphereRuleYAML}.

(** X3. On a sink that records every [Write], a call adds no record or
    exactly one, and that one is [written]. *)
Lemma recording_sink_at_most_one_call (logger : Logger)
    (range : MapRange chronosphereCollection) (ctx : Context_)
    (slos : list StorageSLO) (flavor : OutputFlavor)
    (calls : list bytes) (logs : list LogEntry) :
  let after := (StoreSLOs Version (mkRepo Sample.recordingWriter logger)
                  range ctx slos flavor (mkState calls logs)).1 in
  (written Version range slos flavor = None ∧ sink after = calls) ∨
  (∃ out, written Version range slos flavor = Some out ∧
          sink after = calls ++ [out]).
Proof.
  intros after. subst after.
  destruct (StoreSLOs_cases Version (mkRepo Sample.recordingWriter logger)
              range ctx slos flavor (mkState calls logs))
    as [(err & _ & Hw & ->)|(out & rules & Hw & ->)].
  - by left.
  - right. by exists out.
Qed.

End Calls.
